(** * Loan amortization engine: [calculate_amortization] of [app.py]

    A shallow embedding of the schedule computation of the loan
    calculator, of the script code around it, and the properties of its
    specification.

    Numbers.  [calculate_amortization] is written against whatever numbers
    it is called with: it multiplies, subtracts, adds, compares and rounds
    them.  The embedding takes these operations as an interface, [Arith],
    and runs the function on three kinds of numbers:
    - [binary64], Python floats: IEEE 754 double precision with the
      built-in [round] (the exact value rounded to a decimal, ties to even,
      then the nearest double).  This is what the script computes with: the
      rate it passes is always a float;
    - [exact], exact rationals with ties rounded to even: what the function
      computes on [fractions.Fraction] arguments, and the "exact arithmetic"
      of the specification;
    - Python's [int] and [float] together, with the [OverflowError] of the
      conversion between them, in the transcription
      [Py.calculate_amortization]; on float arguments it is shown to agree
      with the engine on [binary64].
    Properties that do not depend on the arithmetic are proved for every
    [Arith].  Properties of the order of amounts are proved from [Laws],
    a list of facts about [<], [<=], [round], [*] and [-]: signs and
    monotonicity of correctly rounded operations, stated so that NaN and
    the infinities of binary64 satisfy them too.  [Laws] is proved here for
    [exact]; for [binary64] the file gives evaluated schedules only.
    Properties that need exact arithmetic are stated for [exact].
    [max_years] and the period counter are Python integers ([Z]). *)

From Stdlib Require Import ZArith QArith Qround Qabs List Lia Lqa Bool Floats.
Import ListNotations.

Local Open Scope Z_scope.

(** ** The numbers of the engine *)

(** What [calculate_amortization] asks of its numbers. *)
Class Arith : Type := {
  num : Type;
  zero : num;                   (* the literal [0] *)
  add : num -> num -> num;
  sub : num -> num -> num;
  mul : num -> num -> num;
  round : num -> nat -> num;    (* the built-in [round(x, ndigits)] *)
  ltb : num -> num -> bool;     (* [x < y]; the code's [a > b] is [ltb b a] *)
  leb : num -> num -> bool;     (* [x <= y] *)
  finite : num -> bool          (* [math.isfinite]; not used by the code *)
}.

Declare Scope num_scope.
Delimit Scope num_scope with num.
Notation "0" := zero : num_scope.
Infix "+" := add : num_scope.
Infix "-" := sub : num_scope.
Infix "*" := mul : num_scope.
Notation "x < y" := (ltb x y = true) : num_scope.
Notation "x <= y" := (leb x y = true) : num_scope.

(** ** Exact rationals *)

(** Nearest integer to [x], a tie going to the even neighbour. *)
Definition round_half_even (x : Q) : Z :=
  let f := Qfloor x in
  match Qcompare (x - inject_Z f) (1 # 2) with
  | Lt => f
  | Gt => (f + 1)%Z
  | Eq => if Z.even f then f else (f + 1)%Z
  end.

(** [10 ^ ndigits] as a positive number. *)
Definition pow10 (ndigits : nat) : positive := Pos.of_nat (10 ^ ndigits).

(** [round(x, ndigits)] of a [Fraction], for [ndigits >= 0]. *)
Definition round_exact (x : Q) (ndigits : nat) : Q :=
  Qmake (round_half_even (x * inject_Z (Zpos (pow10 ndigits)))) (pow10 ndigits).

(** [a > b] on rationals, as a boolean. *)
Definition Qgt_bool (a b : Q) : bool := negb (Qle_bool a b).

#[export] Instance exact : Arith := {|
  num := Q;
  zero := 0%Q;
  add := Qplus;
  sub := Qminus;
  mul := Qmult;
  round := round_exact;
  ltb := fun x y => Qgt_bool y x;
  leb := Qle_bool;
  finite := fun _ => true
|}.

(** ** Binary64 *)

(** The double nearest to [n / d], ties to even: the quotient is taken with
    at least 56 significant bits, its last bit records a remainder, and
    [binary_normalize] rounds it to 53 bits. *)
Definition nearest_double (n d : positive) : float :=
  let k := Z.max 0 (56 + Z.log2 (Zpos d) - Z.log2 (Zpos n)) in
  let a := (Zpos n * 2 ^ k)%Z in
  let q := (a / Zpos d)%Z in
  let sticky := if (a mod Zpos d =? 0)%Z then q else Z.lor q 1 in
  SF2Prim (binary_normalize prec emax sticky (- k) false).

(** The exact value of [m * 2 ^ e] times [10 ^ ndigits]. *)
Definition scaled (m : positive) (e : Z) (ndigits : nat) : Q :=
  if (0 <=? e)%Z
  then inject_Z (Zpos m * Zpos (pow10 ndigits) * 2 ^ e)
  else Qmake (Zpos m * Zpos (pow10 ndigits)) (Z.to_pos (2 ^ (- e))).

(** [round(x, ndigits)] of a float, for [0 <= ndigits]: the exact value of
    [x] is rounded to [ndigits] decimals, ties to even, and the double
    nearest to that decimal is returned; zeros, infinities and NaN round
    to themselves, and so does every [x] when [ndigits > 323]. *)
Definition round_binary64 (x : float) (ndigits : nat) : float :=
  if (323 <? ndigits)%nat then x
  else
    match Prim2SF x with
    | S754_finite s m e =>
        match round_half_even (scaled m e ndigits) with
        | Zpos n =>
            let r := nearest_double n (pow10 ndigits) in
            if s then (- r)%float else r
        | _ => if s then neg_zero else PrimFloat.zero
        end
    | _ => x
    end.

#[export] Instance binary64 : Arith := {|
  num := float;
  zero := PrimFloat.zero;
  add := PrimFloat.add;
  sub := PrimFloat.sub;
  mul := PrimFloat.mul;
  round := round_binary64;
  ltb := PrimFloat.ltb;
  leb := PrimFloat.leb;
  finite := is_finite
|}.

(** Order laws of the numbers: each holds of binary64, where a comparison
    with NaN is false and an operation on NaN gives NaN, and of exact
    rationals. *)
Section OrderLaws.

Local Open Scope num_scope.

Class Laws (A : Arith) : Prop := {
  num_le_trans : forall x y z : num, x <= y -> y <= z -> x <= z;
  num_lt_le_trans : forall x y z : num, x < y -> y <= z -> x < z;
  num_le_lt_trans : forall x y z : num, x <= y -> y < z -> x < z;
  num_lt_le : forall x y : num, x < y -> x <= y;
  num_le_not_lt : forall x y : num, x <= y -> ltb y x = false;
  num_lt_not_le : forall x y : num, x < y -> leb y x = false;
  num_total : forall x y : num, ltb x y = false -> x <= x -> y <= y -> y <= x;
  num_le_refl_l : forall x y : num, x <= y -> x <= x;
  num_le_refl_r : forall x y : num, x <= y -> y <= y;
  num_finite_le : forall x : num, finite x = true -> x <= x;
  num_finite_between : forall x y z : num,
    x <= y -> y <= z -> finite x = true -> finite z = true ->
    finite y = true;
  num_finite_zero : finite 0 = true;
  round_mono : forall (x y : num) (n : nat), x <= y -> round x n <= round y n;
  round_zero : forall n : nat, round 0 n <= 0 /\ 0 <= round 0 n;
  round_neg : forall (x : num) (n : nat), round x n < 0 -> x < 0;
  round_pos : forall (x : num) (n : nat), 0 < round x n -> 0 < x;
  mul_mono_finite : forall x y r : num,
    finite x = true -> finite y = true -> finite r = true ->
    x <= y -> 0 <= r -> x * r <= y * r;
  mul_mono_pos : forall x y r : num,
    0 <= x -> x <= y -> 0 <= r -> 0 < x * r -> x * r <= y * r;
  mul_nonneg : forall x r : num,
    finite x = true -> finite r = true -> 0 <= x -> 0 <= r -> 0 <= x * r;
  sub_anti : forall m i j : num, finite m = true -> i <= j -> m - j <= m - i;
  sub_nonneg : forall x p : num, finite x = true -> p <= x -> 0 <= x - p;
  sub_le : forall x p : num, finite x = true -> 0 <= p -> x - p <= x;
  sub_not_neg : forall x c : num, ltb x c = false -> ltb (x - c) 0 = false;
  sub_self_not_neg : forall x : num, ltb (x - x) 0 = false;
  sub_self_le : forall x : num, finite x = true -> x - x <= 0;
  sub_neg_le : forall x p : num, 0 <= x -> p < 0 -> x <= x - p;
  sub_neg_pos : forall x p : num, 0 <= x -> p < 0 -> 0 < x - p;
  sub_neg_lt : forall m i : num, m - i < 0 -> m < i
}.

End OrderLaws.

(** * The engine *)

(** [range(lo, hi)] *)
Definition range (lo hi : Z) : list Z :=
  map (fun k => (lo + Z.of_nat k)%Z) (seq 0 (Z.to_nat (hi - lo))).

Section Data.

(** The type of the amounts. *)
Context {num : Type}.

(** ** Data model *)

(** One dictionary appended to [schedule]; the fields are its keys. *)
Record PaymentRecord : Type := mkRecord {
  Month : Z;
  Year : Z;
  Payment : num;
  Interest : num;
  Principal : num;
  Remaining_Balance : num;
  Total_Interest : num;
  Total_Principal : num
}.

(** The local variables of [calculate_amortization] that live across
    iterations. *)
Record state : Type := mkState {
  schedule : list PaymentRecord;
  remaining_principal : num;
  total_interest_paid : num;
  total_principal_paid : num;
  month_num : Z
}.

(** What a loop hands back: it ran to its end ([Continue]) or executed the
    [return] inside its body ([Return]). *)
Inductive flow : Type :=
| Continue (st : state)
| Return (st : state).

End Data.

Arguments PaymentRecord : clear implicits.
Arguments state : clear implicits.
Arguments flow : clear implicits.

(** * The engine on Python's own numbers

    The widgets of the script hand [calculate_amortization] Python [int]s
    and [float]s, and the function computes with whatever it is given:
    [int] with [int] stays an exact [int], an [int] that meets a [float] is
    converted to the nearest float first, and that conversion raises
    [OverflowError] for an [int] beyond the range of binary64.  The function
    itself has no [raise] statement and defines no exception of its own.
    This module is the function on such numbers, with the exception made
    explicit. *)
Module Py.

(** A numeric argument: an [int] or a [float]. *)
Inductive pynum : Type :=
| PyInt (z : Z)
| PyFloat (f : float).

(** The exception the arithmetic of the function raises on such numbers:
    [OverflowError: int too large to convert to float]. *)
Inductive exn : Type :=
| OverflowError.

(** A call returns a value or raises. *)
Inductive result (T : Type) : Type :=
| Returned (v : T)
| Raised (e : exn).

Arguments Returned {T} v.
Arguments Raised {T} e.

Definition bind {T U : Type} (m : result T) (k : T -> result U) : result U :=
  match m with
  | Returned v => k v
  | Raised e => Raised e
  end.

Notation "x <- m ;; k" := (bind m (fun x => k))
  (at level 61, m at next level, right associativity).

(** The conversion [int -> float] of mixed arithmetic: the nearest float,
    ties to even, or [OverflowError] when that is beyond the largest
    float. *)
Definition float_of_int (z : Z) : result float :=
  match binary_normalize prec emax z 0 false with
  | S754_infinity _ => Raised OverflowError
  | x => Returned (SF2Prim x)
  end.

(** [a op b] for [op] one of [+], [-], [*]. *)
Definition arith (int_op : Z -> Z -> Z) (float_op : float -> float -> float)
    (a b : pynum) : result pynum :=
  match a, b with
  | PyInt x, PyInt y => Returned (PyInt (int_op x y))
  | PyFloat x, PyFloat y => Returned (PyFloat (float_op x y))
  | PyInt x, PyFloat y =>
      x' <- float_of_int x ;; Returned (PyFloat (float_op x' y))
  | PyFloat x, PyInt y =>
      y' <- float_of_int y ;; Returned (PyFloat (float_op x y'))
  end.

Definition add : pynum -> pynum -> result pynum := arith Z.add PrimFloat.add.
Definition sub : pynum -> pynum -> result pynum := arith Z.sub PrimFloat.sub.
Definition mul : pynum -> pynum -> result pynum := arith Z.mul PrimFloat.mul.

(** [round(a, ndigits)] for [0 <= ndigits]: an [int] is returned as it
    is. *)
Definition round (a : pynum) (ndigits : nat) : pynum :=
  match a with
  | PyInt z => PyInt z
  | PyFloat f => PyFloat (round_binary64 f ndigits)
  end.

(** A float against an [int]: Python compares the exact values, without
    conversion; [None] when the float is NaN. *)
Definition float_compare_int (f : float) (z : Z) : option comparison :=
  match Prim2SF f with
  | S754_nan => None
  | S754_infinity s => Some (if s then Lt else Gt)
  | S754_zero _ => Some (0 ?= z)%Z
  | S754_finite s m e =>
      let v := scaled m e 0 in
      Some (Qcompare (if s then Qopp v else v) (inject_Z z))
  end.

(** [a > b] *)
Definition gtb (a b : pynum) : bool :=
  match a, b with
  | PyInt x, PyInt y => (y <? x)%Z
  | PyFloat x, PyFloat y => PrimFloat.ltb y x
  | PyFloat x, PyInt y =>
      match float_compare_int x y with
      | Some Gt => true
      | _ => false
      end
  | PyInt x, PyFloat y =>
      match float_compare_int y x with
      | Some Lt => true
      | _ => false
      end
  end.

(** [a <= b] *)
Definition leb (a b : pynum) : bool :=
  match a, b with
  | PyInt x, PyInt y => (x <=? y)%Z
  | PyFloat x, PyFloat y => PrimFloat.leb x y
  | PyFloat x, PyInt y =>
      match float_compare_int x y with
      | Some (Lt | Eq) => true
      | _ => false
      end
  | PyInt x, PyFloat y =>
      match float_compare_int y x with
      | Some (Gt | Eq) => true
      | _ => false
      end
  end.

#[local] Abbreviation PaymentRecord := (PaymentRecord pynum).
#[local] Abbreviation state := (state pynum).
#[local] Abbreviation flow := (flow pynum).

Section Engine.

Variables (principal monthly_rate monthly_payment : pynum).

(** The totals start as the [int] [0]. *)
Definition init : state :=
  mkState [] principal (PyInt 0) (PyInt 0) 0%Z.

(** The body of the inner loop, up to and including [schedule.append];
    the statements are run in the order of the source, and the first one
    to raise ends the call. *)
Definition period (year : Z) (st : state) : result state :=
  let month_num := (month_num st + 1)%Z in
  x <- mul (remaining_principal st) monthly_rate ;;
  let interest_payment := round x 2 in
  y <- sub monthly_payment interest_payment ;;
  let principal_payment := round y 2 in
  pa <- (if gtb principal_payment (remaining_principal st)
         then a <- add interest_payment (remaining_principal st) ;;
              Returned (remaining_principal st, a)
         else Returned (principal_payment, monthly_payment)) ;;
  let principal_payment := fst pa in
  let actual_payment := snd pa in
  total_interest_paid <- add (total_interest_paid st) interest_payment ;;
  total_principal_paid <- add (total_principal_paid st) principal_payment ;;
  remaining_principal <- sub (remaining_principal st) principal_payment ;;
  Returned
    (mkState
       (schedule st ++
          [mkRecord month_num year actual_payment interest_payment
             principal_payment
             (round remaining_principal 2)
             (round total_interest_paid 2)
             (round total_principal_paid 2)])
       remaining_principal total_interest_paid total_principal_paid
       month_num).

(** [remaining_principal <= 0], against the [int] [0]. *)
Definition paid_off (st : state) : bool :=
  leb (remaining_principal st) (PyInt 0).

Fixpoint month_loop (months : list Z) (year : Z) (st : state)
  : result flow :=
  match months with
  | [] => Returned (Continue st)
  | _ :: months' =>
      match period year st with
      | Raised e => Raised e
      | Returned st' =>
          if paid_off st' then Returned (Return st')
          else month_loop months' year st'
      end
  end.

Fixpoint year_loop (years : list Z) (st : state) : result flow :=
  match years with
  | [] => Returned (Continue st)
  | year :: years' =>
      match month_loop (range 1 13) year st with
      | Raised e => Raised e
      | Returned (Return st') => Returned (Return st')
      | Returned (Continue st') => year_loop years' st'
      end
  end.

Definition result_of (st : state) : list PaymentRecord * pynum * pynum * Z :=
  (schedule st, total_interest_paid st, total_principal_paid st, month_num st).

Definition calculate_amortization (max_years : Z)
  : result (list PaymentRecord * pynum * pynum * Z) :=
  match year_loop (range 1 (max_years + 1)) init with
  | Raised e => Raised e
  | Returned (Return st) => Returned (result_of st)
  | Returned (Continue st) => Returned (result_of st)
  end.

End Engine.

(** The kinds of the three amounts of a call. *)
Definition is_float (a : pynum) : bool :=
  match a with
  | PyFloat _ => true
  | PyInt _ => false
  end.

Definition is_int (a : pynum) : bool := negb (is_float a).

(** [a] can meet a float in arithmetic: it is a float, or an [int] that
    the conversion accepts. *)
Definition fits (a : pynum) : bool :=
  match a with
  | PyFloat _ => true
  | PyInt z =>
      match float_of_int z with
      | Returned _ => true
      | Raised _ => false
      end
  end.

End Py.

(** A record, and a returned tuple, of the engine on binary64 as Python
    values. *)
Definition float_record (r : PaymentRecord float) : PaymentRecord Py.pynum :=
  mkRecord (Month r) (Year r)
    (Py.PyFloat (Payment r)) (Py.PyFloat (Interest r))
    (Py.PyFloat (Principal r)) (Py.PyFloat (Remaining_Balance r))
    (Py.PyFloat (Total_Interest r)) (Py.PyFloat (Total_Principal r)).

Definition float_result
    (res : list (PaymentRecord float) * float * float * Z)
  : list (PaymentRecord Py.pynum) * Py.pynum * Py.pynum * Z :=
  (map float_record (fst (fst (fst res))),
   Py.PyFloat (snd (fst (fst res))),
   Py.PyFloat (snd (fst res)),
   snd res).

(** The state of a call on floats: the totals are still the [int] [0]
    before the first period ([fresh]) and floats from then on. *)
Definition float_total (fresh : bool) (t : float) : Py.pynum :=
  if fresh then Py.PyInt 0 else Py.PyFloat t.

Definition float_state (fresh : bool) (st : state float) : state Py.pynum :=
  mkState (map float_record (schedule st))
    (Py.PyFloat (remaining_principal st))
    (float_total fresh (total_interest_paid st))
    (float_total fresh (total_principal_paid st))
    (month_num st).

Definition float_flow (fresh : bool) (f : flow float) : flow Py.pynum :=
  match f with
  | Continue st => Continue (float_state fresh st)
  | Return st => Return (float_state fresh st)
  end.

(** Every amount the loop carries can meet a float. *)
Definition fit_state (st : state Py.pynum) : Prop :=
  Py.fits (remaining_principal st) = true /\
  Py.fits (total_interest_paid st) = true /\
  Py.fits (total_principal_paid st) = true.

(** Every amount the loop carries is an [int]. *)
Definition int_state (st : state Py.pynum) : Prop :=
  Py.is_int (remaining_principal st) = true /\
  Py.is_int (total_interest_paid st) = true /\
  Py.is_int (total_principal_paid st) = true.

Section Engine.

Context {A : Arith}.

Local Open Scope num_scope.

#[local] Abbreviation PaymentRecord := (PaymentRecord num).
#[local] Abbreviation state := (state num).
#[local] Abbreviation flow := (flow num).

(** ** [calculate_amortization] *)

Variables (principal monthly_rate monthly_payment : num).

(** State on entry to the loops. *)
Definition init : state :=
  mkState [] principal 0 0 0%Z.

(** The body of the inner loop, up to and including [schedule.append]. *)
Definition period (year : Z) (st : state) : state :=
  let month_num := (month_num st + 1)%Z in
  let interest_payment := round (remaining_principal st * monthly_rate) 2 in
  let principal_payment := round (monthly_payment - interest_payment) 2 in
  let '(principal_payment, actual_payment) :=
    if ltb (remaining_principal st) principal_payment
    then (remaining_principal st, interest_payment + remaining_principal st)
    else (principal_payment, monthly_payment) in
  let total_interest_paid := total_interest_paid st + interest_payment in
  let total_principal_paid := total_principal_paid st + principal_payment in
  let remaining_principal := remaining_principal st - principal_payment in
  mkState
    (schedule st ++
       [mkRecord month_num year actual_payment interest_payment
          principal_payment
          (round remaining_principal 2)
          (round total_interest_paid 2)
          (round total_principal_paid 2)])
    remaining_principal total_interest_paid total_principal_paid month_num.

(** The test [remaining_principal <= 0] that guards the inner [return]. *)
Definition paid_off (st : state) : bool := leb (remaining_principal st) 0.

(** [for month in range(1, 13)]: the body, then the early [return]. *)
Fixpoint month_loop (months : list Z) (year : Z) (st : state) : flow :=
  match months with
  | [] => Continue st
  | _ :: months' =>
      let st' := period year st in
      if paid_off st' then Return st' else month_loop months' year st'
  end.

(** [for year in range(1, max_years + 1)] *)
Fixpoint year_loop (years : list Z) (st : state) : flow :=
  match years with
  | [] => Continue st
  | year :: years' =>
      match month_loop (range 1 13) year st with
      | Return st' => Return st'
      | Continue st' => year_loop years' st'
      end
  end.

(** The tuple both [return] statements build. *)
Definition result_of (st : state) : list PaymentRecord * num * num * Z :=
  (schedule st, total_interest_paid st, total_principal_paid st, month_num st).

Definition calculate_amortization (max_years : Z)
  : list PaymentRecord * num * num * Z :=
  match year_loop (range 1 (max_years + 1)) init with
  | Return st => result_of st
  | Continue st => result_of st
  end.

(** The caller unpacks the tuple as
    [schedule, total_interest, total_principal, payoff_months]. *)
Definition result_schedule (res : list PaymentRecord * num * num * Z) :=
  fst (fst (fst res)).
Definition total_interest (res : list PaymentRecord * num * num * Z) :=
  snd (fst (fst res)).
Definition total_principal (res : list PaymentRecord * num * num * Z) :=
  snd (fst res).
Definition payoff_months (res : list PaymentRecord * num * num * Z) :=
  snd res.

(** ** Vocabulary of the specification *)

(** Sums over a list of records, taken left to right from [0] the way the
    running totals are accumulated. *)
Definition sum_interest (rs : list PaymentRecord) : num :=
  fold_left (fun acc r => acc + Interest r) rs 0.

Definition sum_principal (rs : list PaymentRecord) : num :=
  fold_left (fun acc r => acc + Principal r) rs 0.

(** The balance left once the principal parts of [rs] are taken off, one
    after the other. *)
Definition balance_after (rs : list PaymentRecord) : num :=
  fold_left (fun bal r => bal - Principal r) rs principal.

(** The year the period after [k] completed periods falls in. *)
Definition year_of (k : nat) : Z := (Z.of_nat (k / 12) + 1)%Z.

(** The state after [k] periods when nothing stops the iteration: steps
    2.a to 2.f of the algorithm, repeated. *)
Fixpoint after (k : nat) : state :=
  match k with
  | O => init
  | S k' => period (year_of k') (after k')
  end.

(** [r] is the record one period appends when it starts in state [st]
    during year [y]. *)
Definition emits (st : state) (y : Z) (r : PaymentRecord) : Prop :=
  Month r = (month_num st + 1)%Z /\
  Year r = y /\
  Interest r = round (remaining_principal st * monthly_rate) 2 /\
  (if ltb (remaining_principal st) (round (monthly_payment - Interest r) 2)
   then Principal r = remaining_principal st /\
        Payment r = Interest r + Principal r
   else Principal r = round (monthly_payment - Interest r) 2 /\
        Payment r = monthly_payment) /\
  Remaining_Balance r = round (remaining_principal st - Principal r) 2 /\
  Total_Interest r = round (total_interest_paid st + Interest r) 2 /\
  Total_Principal r = round (total_principal_paid st + Principal r) 2.

(** The iteration comes to its end after exactly [N] periods: none of the
    first [N - 1] leaves a balance [<= 0], and either period [N] does or
    the [12 * max_years] periods are used up. *)
Definition stops_at (max_years : Z) (N : nat) : Prop :=
  (N <= 12 * Z.to_nat max_years)%nat /\
  (forall j, (1 <= j < N)%nat -> paid_off (after j) = false) /\
  (((1 <= N)%nat /\ paid_off (after N) = true) \/
   (N = (12 * Z.to_nat max_years)%nat /\
    forall j, (1 <= j <= N)%nat -> paid_off (after j) = false)).

(** ** The caller: summary, payoff banner, table filter, insights

    The script around [calculate_amortization] builds a data frame from the
    schedule (one row per record, in order) and computes on it.  The frame
    is modelled by the list of records. *)

(** [payoff_years = payoff_months // 12] and
    [payoff_remaining_months = payoff_months % 12]. *)
Definition payoff_years (months : Z) : Z := (months / 12)%Z.
Definition payoff_remaining_months (months : Z) : Z := (months mod 12)%Z.

(** [df.iloc[-1]]: the last row; [None] is the [IndexError] of an empty
    frame. *)
Definition iloc_last (df : list PaymentRecord) : option PaymentRecord :=
  nth_error df (length df - 1).

(** What the script shows after the summary: the warning with the term and
    the balance left, or the success message with the payoff time. *)
Inductive banner : Type :=
| warning (loan_term_years : Z) (remaining : num)
| success (years months : Z).

(** [if df.iloc[-1]['Remaining_Balance'] > 0: st.warning(...)
     else: st.success(...)] *)
Definition payoff_banner (df : list PaymentRecord)
    (loan_term_years months : Z) : option banner :=
  match iloc_last df with
  | None => None
  | Some last =>
      if ltb 0 (Remaining_Balance last)
      then Some (warning loan_term_years (Remaining_Balance last))
      else Some (success (payoff_years months) (payoff_remaining_months months))
  end.

(** [df[df['Year'] == year_num]] *)
Definition filter_year (df : list PaymentRecord) (year_num : Z)
  : list PaymentRecord :=
  filter (fun r => (Year r =? year_num)%Z) df.

(** The table shown: [show_year] is [None] for "All Years", and
    [.head(show_months)] keeps the first [show_months] rows. *)
Definition filtered_df (show_year : option Z) (show_months : nat)
    (df : list PaymentRecord) : list PaymentRecord :=
  match show_year with
  | Some year_num => firstn show_months (filter_year df year_num)
  | None => firstn show_months df
  end.

(** [max(df['Year'])]; [None] is the error on an empty frame. *)
Definition max_year (df : list PaymentRecord) : option Z :=
  match map Year df with
  | [] => None
  | y :: ys => Some (fold_left Z.max ys y)
  end.

(** The years offered by the filter, [range(1, max(df['Year']) + 1)]. *)
Definition year_options (df : list PaymentRecord) : option (list Z) :=
  match max_year df with
  | None => None
  | Some m => Some (range 1 (m + 1))
  end.

(** [df[df['Year'] == 1]['Interest'].sum()] and the same for
    ['Principal'], computed when [len(df) >= 12]. *)
Definition year_one_interest (df : list PaymentRecord) : num :=
  sum_interest (filter_year df 1).

Definition year_one_principal (df : list PaymentRecord) : num :=
  sum_principal (filter_year df 1).

(** Rows that carry the year of their position, counted from [12 * b]. *)
Definition years_from (b : nat) (l : list PaymentRecord) : Prop :=
  forall k r, nth_error l k = Some r -> Year r = year_of (12 * b + k).


(** * Properties that hold in every arithmetic *)

(** ** One period *)

(** ** One period *)

Lemma period_emits (y : Z) (st : state) :
  exists r,
    emits st y r /\
    period y st =
      mkState (schedule st ++ [r])
        (remaining_principal st - Principal r)
        (total_interest_paid st + Interest r)
        (total_principal_paid st + Principal r)
        (month_num st + 1)%Z.
Proof.
  unfold period, emits.
  set (i := round (remaining_principal st * monthly_rate) 2).
  destruct (ltb (remaining_principal st) (round (monthly_payment - i) 2))
    eqn:E.
  - exists (mkRecord (month_num st + 1) y (i + remaining_principal st) i
              (remaining_principal st)
              (round (remaining_principal st - remaining_principal st) 2)
              (round (total_interest_paid st + i) 2)
              (round (total_principal_paid st + remaining_principal st) 2)).
    cbn. rewrite E. repeat split.
  - exists (mkRecord (month_num st + 1) y monthly_payment i
              (round (monthly_payment - i) 2)
              (round (remaining_principal st - round (monthly_payment - i) 2) 2)
              (round (total_interest_paid st + i) 2)
              (round (total_principal_paid st + round (monthly_payment - i) 2) 2)).
    cbn. rewrite E. repeat split.
Qed.

Lemma sum_interest_snoc rs r :
  sum_interest (rs ++ [r]) = sum_interest rs + Interest r.
Proof. unfold sum_interest. now rewrite fold_left_app. Qed.

Lemma sum_principal_snoc rs r :
  sum_principal (rs ++ [r]) = sum_principal rs + Principal r.
Proof. unfold sum_principal. now rewrite fold_left_app. Qed.

Lemma balance_after_snoc rs r :
  balance_after (rs ++ [r]) = balance_after rs - Principal r.
Proof. unfold balance_after. now rewrite fold_left_app. Qed.


(** ** The unstopped iteration *)

(** ** The unstopped iteration *)

Lemma after_step (k : nat) :
  exists r,
    emits (after k) (year_of k) r /\
    schedule (after (S k)) = schedule (after k) ++ [r] /\
    remaining_principal (after (S k)) = remaining_principal (after k) - Principal r /\
    total_interest_paid (after (S k)) = total_interest_paid (after k) + Interest r /\
    total_principal_paid (after (S k)) = total_principal_paid (after k) + Principal r /\
    month_num (after (S k)) = (month_num (after k) + 1)%Z.
Proof.
  destruct (period_emits (year_of k) (after k)) as (r & He & Hp).
  exists r. cbn [after]. rewrite Hp. cbn. split; [exact He|]. repeat split.
Qed.

Lemma after_length (k : nat) : length (schedule (after k)) = k.
Proof.
  induction k as [|k IH]; [reflexivity|].
  destruct (after_step k) as (r & _ & -> & _).
  rewrite length_app, IH. cbn. lia.
Qed.

Lemma after_month_num (k : nat) : month_num (after k) = Z.of_nat k.
Proof.
  induction k as [|k IH]; [reflexivity|].
  destruct (after_step k) as (r & _ & _ & _ & _ & _ & ->). lia.
Qed.

Lemma after_running (k : nat) :
  remaining_principal (after k) = balance_after (schedule (after k)) /\
  total_interest_paid (after k) = sum_interest (schedule (after k)) /\
  total_principal_paid (after k) = sum_principal (schedule (after k)).
Proof.
  induction k as [|k (IHb & IHi & IHp)]; [repeat split|].
  destruct (after_step k) as (r & _ & -> & -> & -> & -> & _).
  rewrite balance_after_snoc, sum_interest_snoc, sum_principal_snoc.
  now rewrite IHb, IHi, IHp.
Qed.

Lemma after_prefix (n k : nat) :
  (k <= n)%nat -> firstn k (schedule (after n)) = schedule (after k).
Proof.
  induction n as [|n IH]; intros Hk.
  - replace k with 0%nat by lia. reflexivity.
  - destruct (Nat.eq_dec k (S n)) as [-> | Hne].
    + rewrite <- (after_length (S n)) at 1. apply firstn_all.
    + destruct (after_step n) as (r & _ & -> & _).
      rewrite firstn_app, after_length.
      replace (k - n)%nat with 0%nat by lia.
      rewrite firstn_O, app_nil_r. apply IH. lia.
Qed.

Lemma after_nth (n k : nat) (r : PaymentRecord) :
  nth_error (schedule (after n)) k = Some r ->
  (k < n)%nat /\ emits (after k) (year_of k) r /\
  schedule (after (S k)) = schedule (after k) ++ [r].
Proof.
  intros H.
  assert (Hk : (k < n)%nat).
  { rewrite <- (after_length n). apply nth_error_Some. congruence. }
  split; [assumption|].
  destruct (after_step k) as (r' & He & Hs & _).
  assert (r' = r); [|subst; auto].
  assert (Hn : nth_error (schedule (after (S k))) k = Some r).
  { rewrite <- (after_prefix n (S k)) by lia.
    rewrite nth_error_firstn.
    destruct (Nat.ltb_spec k (S k)); [assumption | lia]. }
  rewrite Hs, nth_error_app2, after_length, Nat.sub_diag in Hn
    by (rewrite after_length; lia).
  cbn in Hn. congruence.
Qed.


(** ** The loops against the unstopped iteration *)

(** ** The loops against the unstopped iteration *)

Lemma year_of_within (a i : nat) :
  (12 * a <= i < 12 * a + 12)%nat -> year_of i = (1 + Z.of_nat a)%Z.
Proof.
  intros H. unfold year_of.
  assert (E : (i / 12 = a)%nat).
  { symmetry. apply (Nat.div_unique i 12 a (i - 12 * a)); lia. }
  rewrite E. lia.
Qed.

Lemma month_loop_after (months : list Z) (y : Z) (k : nat) :
  (forall i, (k <= i < k + length months)%nat -> year_of i = y) ->
  (exists j, (k < j <= k + length months)%nat /\
             paid_off (after j) = true /\
             (forall i, (k < i < j)%nat -> paid_off (after i) = false) /\
             month_loop months y (after k) = Return (after j)) \/
  ((forall i, (k < i <= k + length months)%nat -> paid_off (after i) = false) /\
   month_loop months y (after k) = Continue (after (k + length months))).
Proof.
  revert k. induction months as [|m months IH]; intros k Hy.
  - right. cbn. rewrite Nat.add_0_r. split; [intros; lia | reflexivity].
  - cbn [month_loop length].
    assert (Ep : period y (after k) = after (S k))
      by (cbn [after]; rewrite (Hy k) by (cbn; lia); reflexivity).
    rewrite Ep.
    destruct (paid_off (after (S k))) eqn:E.
    + left. exists (S k). repeat split; try lia; auto.
    + destruct (IH (S k)) as [(j & Hj & Hp & Hn & Hr) | (Hn & Hr)].
      * intros i Hi. apply Hy. cbn; lia.
      * left. exists j. repeat split; try lia; auto.
        intros i Hi. destruct (Nat.eq_dec i (S k)) as [-> | N]; auto.
        apply Hn. lia.
      * right.
        replace (k + S (length months))%nat with (S k + length months)%nat by lia.
        split; auto.
        intros i Hi. destruct (Nat.eq_dec i (S k)) as [-> | N]; auto.
        apply Hn. lia.
Qed.

Lemma range_length (lo hi : Z) : length (range lo hi) = Z.to_nat (hi - lo).
Proof. unfold range. now rewrite length_map, length_seq. Qed.

Lemma year_loop_after (c a : nat) :
  (forall j, (1 <= j <= 12 * a)%nat -> paid_off (after j) = false) ->
  exists N,
    (12 * a <= N <= 12 * (a + c))%nat /\
    (forall j, (1 <= j < N)%nat -> paid_off (after j) = false) /\
    ((year_loop (map (fun k => (1 + Z.of_nat k)%Z) (seq a c)) (after (12 * a))
        = Return (after N) /\ (1 <= N)%nat /\ paid_off (after N) = true) \/
     (year_loop (map (fun k => (1 + Z.of_nat k)%Z) (seq a c)) (after (12 * a))
        = Continue (after N) /\ N = (12 * (a + c))%nat /\
      forall j, (1 <= j <= N)%nat -> paid_off (after j) = false)).
Proof.
  revert a. induction c as [|c IH]; intros a Hpre.
  - exists (12 * a)%nat. split; [lia|]. split; [intros; apply Hpre; lia|].
    right. cbn. split; [reflexivity|]. split; [lia|].
    intros j Hj. apply Hpre. lia.
  - cbn [seq map year_loop].
    destruct (month_loop_after (range 1 13) (1 + Z.of_nat a) (12 * a))
      as [(j & Hj & Hp & Hn & Hr) | (Hn & Hr)].
    + intros i Hi. rewrite range_length in Hi. apply year_of_within.
      change (Z.to_nat (13 - 1)) with 12%nat in Hi. lia.
    + rewrite range_length in Hj. change (Z.to_nat (13 - 1)) with 12%nat in Hj.
      exists j. rewrite Hr. split; [lia|]. split.
      * intros i Hi. destruct (Nat.le_gt_cases i (12 * a)); [apply Hpre|apply Hn]; lia.
      * left. repeat split; [lia | assumption].
    + rewrite range_length in Hn, Hr.
      change (Z.to_nat (13 - 1)) with 12%nat in Hn, Hr.
      rewrite Hr.
      replace (12 * a + 12)%nat with (12 * S a)%nat in * by lia.
      destruct (IH (S a)) as (N & HN & Hbefore & Hend).
      * intros i Hi. destruct (Nat.le_gt_cases i (12 * a)); [apply Hpre|apply Hn]; lia.
      * exists N. split; [lia|]. split; [assumption|].
        destruct Hend as [(E & H1 & H2) | (E & H1 & H2)]; [left | right];
          repeat split; auto. lia.
Qed.

(** The engine returns the state of the unstopped iteration at the period
    where it comes to its end. *)
Lemma engine_run (max_years : Z) :
  exists N, stops_at max_years N /\
            calculate_amortization max_years = result_of (after N).
Proof.
  unfold calculate_amortization, range.
  replace (Z.to_nat (max_years + 1 - 1)) with (Z.to_nat max_years) by lia.
  destruct (year_loop_after (Z.to_nat max_years) 0) as (N & HN & Hb & He).
  { intros j Hj. lia. }
  change (after (12 * 0)) with init in He.
  exists N. unfold stops_at.
  destruct He as [(-> & H1 & H2) | (-> & H1 & H2)].
  - repeat split; [lia | assumption | left; auto].
  - repeat split; [lia | assumption | right; split; [lia | assumption]].
Qed.

(** The period at which the iteration comes to its end is unique. *)
Lemma stops_at_unique (max_years : Z) (N M : nat) :
  stops_at max_years N -> stops_at max_years M -> N = M.
Proof.
  intros (HN & HbN & HeN) (HM & HbM & HeM).
  destruct (Nat.lt_trichotomy N M) as [L | [E | G]]; [exfalso | assumption | exfalso].
  - destruct HeN as [(H1 & H2) | (H1 & H2)]; [|lia].
    rewrite (HbM N) in H2 by lia. discriminate.
  - destruct HeM as [(H1 & H2) | (H1 & H2)]; [|lia].
    rewrite (HbN M) in H2 by lia. discriminate.
Qed.

(** What the caller gets, in terms of the unstopped iteration. *)
Lemma engine_result (max_years : Z) :
  exists N, stops_at max_years N /\
    result_schedule (calculate_amortization max_years) = schedule (after N) /\
    total_interest (calculate_amortization max_years) = total_interest_paid (after N) /\
    total_principal (calculate_amortization max_years) = total_principal_paid (after N) /\
    payoff_months (calculate_amortization max_years) = Z.of_nat N /\
    length (result_schedule (calculate_amortization max_years)) = N.
Proof.
  destruct (engine_run max_years) as (N & Hs & ->).
  exists N. split; [assumption|]. cbn.
  repeat split; [apply after_month_num | apply after_length].
Qed.


(** ** Records of the returned schedule *)

(** Every record of the returned schedule is the one emitted by the period
    of its position, started from the state the records before it leave. *)
Lemma engine_record (max_years : Z) (k : nat) (r : PaymentRecord) :
  nth_error (result_schedule (calculate_amortization max_years)) k = Some r ->
  exists N,
    stops_at max_years N /\
    length (result_schedule (calculate_amortization max_years)) = N /\
    (k < N)%nat /\
    emits (after k) (year_of k) r /\
    firstn k (result_schedule (calculate_amortization max_years))
      = schedule (after k) /\
    firstn (S k) (result_schedule (calculate_amortization max_years))
      = schedule (after k) ++ [r] /\
    remaining_principal (after (S k))
      = remaining_principal (after k) - Principal r.
Proof.
  destruct (engine_result max_years) as (N & Hs & -> & _ & _ & _ & HL).
  intros H. exists N.
  destruct (after_nth N k r H) as (Hk & He & Hsk).
  split; [assumption|]. split; [apply after_length|]. split; [assumption|].
  split; [assumption|]. split; [apply after_prefix; lia|].
  split; [rewrite <- Hsk; apply after_prefix; lia|].
  destruct (after_step k) as (r' & _ & Hs' & Hr' & _).
  rewrite Hs' in Hsk. apply app_inv_head in Hsk.
  injection Hsk as ->. exact Hr'.
Qed.

Lemma after_months (k : nat) :
  map Month (schedule (after k)) = map Z.of_nat (seq 1 k).
Proof.
  induction k as [|k IH]; [reflexivity|].
  destruct (after_step k) as (r & (Hm & _) & -> & _).
  rewrite seq_S, !map_app, IH. cbn. rewrite Hm, after_month_num.
  do 2 f_equal. lia.
Qed.

(** ** Balances *)

Lemma record_balance (max_years : Z) (k : nat) (r : PaymentRecord) :
  nth_error (result_schedule (calculate_amortization max_years)) k = Some r ->
  Remaining_Balance r = round (remaining_principal (after (S k))) 2 /\
  remaining_principal (after k)
    = balance_after (firstn k (result_schedule (calculate_amortization max_years))) /\
  remaining_principal (after (S k))
    = balance_after (firstn (S k) (result_schedule (calculate_amortization max_years))).
Proof.
  intros H.
  destruct (engine_record max_years k r H)
    as (N & _ & _ & _ & He & Hpre & Hupto & Hrem).
  destruct He as (_ & _ & _ & _ & Hb & _).
  rewrite Hrem, Hpre, Hupto, balance_after_snoc.
  destruct (after_running k) as [<- _]. now repeat split.
Qed.

(** ** Position, month and year of a record *)

Lemma engine_record_position (max_years : Z) (k : nat) (r : PaymentRecord) :
  nth_error (result_schedule (calculate_amortization max_years)) k = Some r ->
  Month r = Z.of_nat (S k) /\ Year r = year_of k /\
  (k < 12 * Z.to_nat max_years)%nat.
Proof.
  intros H.
  destruct (engine_record max_years k r H)
    as (N & (HN & _) & _ & Hk & (Hm & Hy & _) & _).
  rewrite Hm, after_month_num. repeat split; [lia | assumption | lia].
Qed.

Lemma year_of_iff (i a : nat) :
  year_of i = (Z.of_nat a + 1)%Z <-> (12 * a <= i < 12 * a + 12)%nat.
Proof.
  split.
  - unfold year_of. intros H.
    assert (E : (i / 12 = a)%nat) by lia.
    pose proof (Nat.div_mod_eq i 12) as Hd.
    pose proof (Nat.mod_upper_bound i 12) as Hm. lia.
  - intros H. rewrite (year_of_within a i H). lia.
Qed.

Lemma record_totals (max_years : Z) (k : nat) (r : PaymentRecord) :
  nth_error (result_schedule (calculate_amortization max_years)) k = Some r ->
  Total_Interest r
  = round (sum_interest
             (firstn (S k) (result_schedule (calculate_amortization max_years)))) 2 /\
  Total_Principal r
  = round (sum_principal
             (firstn (S k) (result_schedule (calculate_amortization max_years)))) 2.
Proof.
  intros H.
  destruct (engine_record max_years k r H)
    as (N & _ & _ & _ & He & _ & -> & _).
  rewrite sum_interest_snoc, sum_principal_snoc.
  destruct (after_running k) as (_ & <- & <-).
  destruct He as (_ & _ & _ & _ & _ & Hi & Hp). now split.
Qed.

(** ** The claims that hold in every arithmetic *)

(** C2. Early termination.  The engine returns at the first period that
    leaves a balance [<= 0], with the records produced so far and that
    period's index; when no period of the double loop does, it returns the
    records of all its periods and their count, which is [max_years * 12]
    (the loop has no period when [max_years] is negative). *)
Theorem early_termination (max_years : Z) :
  (forall k : nat,
     (1 <= k <= 12 * Z.to_nat max_years)%nat ->
     paid_off (after k) = true ->
     (forall j, (1 <= j < k)%nat -> paid_off (after j) = false) ->
     calculate_amortization max_years = result_of (after k) /\
     length (result_schedule (calculate_amortization max_years)) = k /\
     payoff_months (calculate_amortization max_years) = Z.of_nat k) /\
  ((forall j, (1 <= j <= 12 * Z.to_nat max_years)%nat ->
              paid_off (after j) = false) ->
   calculate_amortization max_years
     = result_of (after (12 * Z.to_nat max_years)) /\
   length (result_schedule (calculate_amortization max_years))
     = (12 * Z.to_nat max_years)%nat /\
   payoff_months (calculate_amortization max_years)
     = Z.of_nat (12 * Z.to_nat max_years) /\
   ((0 <= max_years)%Z ->
    Z.of_nat (length (result_schedule (calculate_amortization max_years)))
      = (max_years * 12)%Z /\
    payoff_months (calculate_amortization max_years) = (max_years * 12)%Z)).
Proof.
  destruct (engine_run max_years) as (N & Hs & Hrun).
  split.
  - intros k Hk Hp Hb.
    assert (E : N = k).
    { apply (stops_at_unique max_years); [assumption|].
      repeat split; [lia | assumption | left; split; [lia | assumption]]. }
    subst N. rewrite Hrun. cbn.
    repeat split; [apply after_length | apply after_month_num].
  - intros Hb.
    assert (E : N = (12 * Z.to_nat max_years)%nat).
    { apply (stops_at_unique max_years); [assumption|].
      repeat split; [lia | intros; apply Hb; lia | right; split; auto]. }
    subst N. rewrite Hrun. cbn.
    rewrite after_length, after_month_num. repeat split; lia.
Qed.

(** C4. Round, then accumulate.  Every record's interest is
    [round(balance * monthly_rate, 2)] of the balance left by the records
    before it, its principal part is [round(monthly_payment - interest, 2)]
    (or the balance, when clamped), and the returned totals are the sums of
    these per-period amounts as they stand in the records. *)
Theorem rounded_then_accumulated (max_years : Z) :
  let res := calculate_amortization max_years in
  (forall k r,
     nth_error (result_schedule res) k = Some r ->
     let balance := balance_after (firstn k (result_schedule res)) in
     Interest r = round (balance * monthly_rate) 2 /\
     (Principal r = round (monthly_payment - Interest r) 2 \/
      (balance < round (monthly_payment - Interest r) 2 /\
       Principal r = balance))) /\
  total_interest res = sum_interest (result_schedule res) /\
  total_principal res = sum_principal (result_schedule res).
Proof.
  intros res. split.
  - intros k r H balance.
    destruct (engine_record max_years k r H)
      as (N & _ & _ & _ & He & Hpre & _).
    assert (Hbal : balance = remaining_principal (after k)).
    { unfold balance, res. rewrite Hpre. now destruct (after_running k) as [-> _]. }
    destruct He as (_ & _ & Hi & Hc & _). rewrite <- Hbal in Hi, Hc.
    split; [assumption|].
    destruct (ltb _ _) eqn:E.
    + right. split; [reflexivity | apply Hc].
    + left. apply Hc.
  - unfold res.
    destruct (engine_result max_years) as (N & _ & -> & -> & -> & _).
    destruct (after_running N) as (_ & Hi & Hp). now split.
Qed.

(** C9. Period numbering.  The [Month] values of the returned records are
    [1, 2, ..., N], the returned period count is [N], the number of
    records, and with [max_years >= 1] there is at least one record. *)
Theorem periods_contiguous (max_years : Z) :
  let res := calculate_amortization max_years in
  map Month (result_schedule res)
    = map Z.of_nat (seq 1 (length (result_schedule res))) /\
  payoff_months res = Z.of_nat (length (result_schedule res)) /\
  ((1 <= max_years)%Z -> result_schedule res <> []).
Proof.
  intros res. unfold res.
  destruct (engine_result max_years) as (N & Hs & Hsched & _ & _ & -> & HL).
  rewrite HL. split; [|split].
  - rewrite Hsched. apply after_months.
  - reflexivity.
  - intros Hy E. rewrite E in HL. cbn in HL. subst N.
    destruct Hs as (_ & _ & [(H1 & _) | (H1 & _)]); lia.
Qed.

(** C10. Stored snapshots.  The [Total_Interest], [Total_Principal] and
    [Remaining_Balance] of a record are the running values, through that
    record, rounded to two places; the returned totals are the running
    sums themselves, not rounded again. *)
Theorem snapshots_rounded (max_years : Z) :
  let res := calculate_amortization max_years in
  (forall k r,
     nth_error (result_schedule res) k = Some r ->
     let upto := firstn (S k) (result_schedule res) in
     Total_Interest r = round (sum_interest upto) 2 /\
     Total_Principal r = round (sum_principal upto) 2 /\
     Remaining_Balance r = round (balance_after upto) 2) /\
  total_interest res = sum_interest (result_schedule res) /\
  total_principal res = sum_principal (result_schedule res).
Proof.
  intros res. split.
  - intros k r H upto.
    destruct (engine_record max_years k r H)
      as (N & _ & _ & _ & He & _ & Hupto & _).
    unfold upto, res. rewrite Hupto.
    rewrite sum_interest_snoc, sum_principal_snoc, balance_after_snoc.
    destruct (after_running k) as (<- & <- & <-).
    destruct He as (_ & _ & _ & _ & Hb & Hi & Hp). now repeat split.
  - unfold res.
    destruct (engine_result max_years) as (N & _ & -> & -> & -> & _).
    destruct (after_running N) as (_ & Hi & Hp). now split.
Qed.


(** * Further properties that hold in every arithmetic *)

(** X1.  The [Year] of a record is the year its [Month] falls in,
    [(Month - 1) // 12 + 1], and lies between 1 and [max_years]. *)
Theorem year_of_record (max_years : Z) (k : nat) (r : PaymentRecord) :
  nth_error (result_schedule (calculate_amortization max_years)) k = Some r ->
  Year r = ((Month r - 1) / 12 + 1)%Z /\ (1 <= Year r <= max_years)%Z.
Proof.
  intros H.
  destruct (engine_record_position max_years k r H) as (Hm & Hy & Hk).
  rewrite Hm, Hy. unfold year_of.
  replace (Z.of_nat (S k) - 1)%Z with (Z.of_nat k) by lia.
  rewrite Nat2Z.inj_div. split; [reflexivity|].
  change (Z.of_nat 12) with 12%Z.
  assert (Hq : (0 <= Z.of_nat k / 12 < Z.of_nat (Z.to_nat max_years))%Z).
  { split; [apply Z.div_pos; lia|].
    apply Z.div_lt_upper_bound; lia. }
  lia.
Qed.

(** The last record, the state it was stored from and the way the
    iteration ended. *)
Lemma engine_last (max_years : Z) (last : PaymentRecord) :
  iloc_last (result_schedule (calculate_amortization max_years)) = Some last ->
  exists N,
    stops_at max_years (S N) /\
    length (result_schedule (calculate_amortization max_years)) = S N /\
    payoff_months (calculate_amortization max_years) = Z.of_nat (S N) /\
    Year last = year_of N /\
    balance_after (result_schedule (calculate_amortization max_years))
      = remaining_principal (after (S N)) /\
    total_principal (calculate_amortization max_years)
      = sum_principal (result_schedule (calculate_amortization max_years)) /\
    Remaining_Balance last
      = round (balance_after (result_schedule (calculate_amortization max_years))) 2.
Proof.
  unfold iloc_last. intros H.
  destruct (engine_record_position max_years _ last H) as (_ & Hy & _).
  destruct (record_balance max_years _ last H) as (Hb & _ & Hup).
  destruct (engine_result max_years) as (N & Hs & Hsched & _ & Htp & Hpm & HL).
  destruct N as [|N].
  { apply length_zero_iff_nil in HL. rewrite HL in H. discriminate. }
  rewrite HL in Hy, Hb, Hup.
  replace (S N - 1)%nat with N in * by lia.
  rewrite firstn_all2 in Hup by lia.
  exists N.
  split; [assumption|]. split; [assumption|]. split; [assumption|].
  split; [assumption|]. split; [now rewrite <- Hup|]. split.
  { rewrite Htp, Hsched. now destruct (after_running (S N)) as (_ & _ & ->). }
  now rewrite <- Hup.
Qed.

(** X7.  The payoff time shown: its years never exceed the term, and the
    last record lies in year [payoff_years], when the months are 0, or in
    the year after. *)
Theorem payoff_time (max_years : Z) (last : PaymentRecord) :
  iloc_last (result_schedule (calculate_amortization max_years)) = Some last ->
  let months := payoff_months (calculate_amortization max_years) in
  (0 <= payoff_years months <= max_years)%Z /\
  (payoff_years months = max_years -> payoff_remaining_months months = 0%Z) /\
  Year last
  = (if (payoff_remaining_months months =? 0)%Z
     then payoff_years months else payoff_years months + 1)%Z.
Proof.
  intros H months. unfold months, payoff_years, payoff_remaining_months.
  destruct (engine_last max_years last H)
    as (N & (HN & _) & _ & -> & -> & _).
  unfold year_of. rewrite Nat2Z.inj_div. change (Z.of_nat 12) with 12%Z.
  assert (Hm : (0 <= max_years)%Z) by lia.
  assert (HN' : (Z.of_nat (S N) <= 12 * max_years)%Z) by lia.
  destruct (Z.eqb_spec (Z.of_nat (S N) mod 12) 0) as [E | E];
    repeat split; Z.to_euclidean_division_equations; lia.
Qed.

(** X10.  A longer term only appends: the schedule for [max_years] is the
    beginning of the schedule for any longer term. *)
Theorem longer_term_extends (max_years longer : Z) :
  (max_years <= longer)%Z ->
  result_schedule (calculate_amortization max_years)
  = firstn (length (result_schedule (calculate_amortization max_years)))
      (result_schedule (calculate_amortization longer)).
Proof.
  intros Hle.
  destruct (engine_result max_years)
    as (N & (HN & Hb & Hend) & -> & _ & _ & _ & _).
  destruct (engine_result longer)
    as (M & (HM & Hb' & Hend') & -> & _ & _ & _ & _).
  rewrite after_length. symmetry. apply after_prefix.
  destruct (Nat.le_gt_cases N M) as [L | G]; [assumption | exfalso].
  destruct Hend' as [(H1 & H2) | (H1 & _)]; [|lia].
  rewrite (Hb M) in H2 by lia. discriminate.
Qed.


(** ** The table filter *)

(** ** The table filter *)

Lemma filter_all {T : Type} (f : T -> bool) (l : list T) :
  (forall x, In x l -> f x = true) -> filter f l = l.
Proof.
  induction l as [|a l IH]; intros H; [reflexivity|].
  cbn. rewrite (H a) by now left.
  f_equal. apply IH. intros x Hx. apply H. now right.
Qed.

Lemma filter_none {T : Type} (f : T -> bool) (l : list T) :
  (forall x, In x l -> f x = false) -> filter f l = [].
Proof.
  induction l as [|a l IH]; intros H; [reflexivity|].
  cbn. rewrite (H a) by now left.
  apply IH. intros x Hx. apply H. now right.
Qed.

Lemma years_from_skip (b : nat) (l : list PaymentRecord) :
  years_from b l -> years_from (S b) (skipn 12 l).
Proof.
  intros H k r Hk. rewrite nth_error_skipn in Hk.
  rewrite (H _ _ Hk). f_equal. lia.
Qed.

Lemma filter_year_block (a b : nat) (l : list PaymentRecord) :
  years_from b l ->
  filter_year l (Z.of_nat (b + a) + 1) = firstn 12 (skipn (12 * a) l).
Proof.
  revert b l. induction a as [|a IH]; intros b l H.
  - rewrite Nat.add_0_r. cbn [Nat.mul skipn].
    rewrite <- (firstn_skipn 12 l) at 1.
    unfold filter_year. rewrite filter_app.
    rewrite filter_all, filter_none; [apply app_nil_r| |].
    + intros r Hr. apply In_nth_error in Hr. destruct Hr as (k & Hk).
      rewrite nth_error_skipn in Hk. rewrite (H _ _ Hk).
      apply Z.eqb_neq. intros E. apply year_of_iff in E. lia.
    + intros r Hr. apply In_nth_error in Hr. destruct Hr as (k & Hk).
      rewrite nth_error_firstn in Hk.
      destruct (Nat.ltb_spec k 12); [|discriminate].
      rewrite (H _ _ Hk). apply Z.eqb_eq. apply year_of_iff. lia.
  - replace (12 * S a)%nat with (12 * a + 12)%nat by lia.
    rewrite <- skipn_skipn.
    rewrite <- (IH (S b) (skipn 12 l)) by now apply years_from_skip.
    replace (Z.of_nat (S b + a)) with (Z.of_nat (b + S a)) by lia.
    rewrite <- (firstn_skipn 12 l) at 1.
    unfold filter_year. rewrite filter_app, filter_none; [reflexivity|].
    intros r Hr. apply In_nth_error in Hr. destruct Hr as (k & Hk).
    rewrite nth_error_firstn in Hk.
    destruct (Nat.ltb_spec k 12); [|discriminate].
    rewrite (H _ _ Hk). apply Z.eqb_neq. intros E. apply year_of_iff in E. lia.
Qed.

Lemma engine_years_from (max_years : Z) :
  years_from 0 (result_schedule (calculate_amortization max_years)).
Proof.
  intros k r H.
  destruct (engine_record_position max_years k r H) as (_ & -> & _).
  f_equal.
Qed.

Lemma engine_filter_year (max_years : Z) (a : nat) :
  filter_year (result_schedule (calculate_amortization max_years))
    (Z.of_nat a + 1)
  = firstn 12 (skipn (12 * a)
                 (result_schedule (calculate_amortization max_years))).
Proof. apply (filter_year_block a 0 _ (engine_years_from max_years)). Qed.

(** X11.  Filtering the table by year [y >= 1] keeps the block of rows
    [12 * (y - 1) + 1 .. 12 * y] of the schedule, so at most twelve rows;
    with a year selected, showing the first [n >= 12] months cuts nothing
    off. *)
Theorem filter_by_year (max_years : Z) (a n : nat) :
  let sched := result_schedule (calculate_amortization max_years) in
  filter_year sched (Z.of_nat a + 1) = firstn 12 (skipn (12 * a) sched) /\
  (length (filter_year sched (Z.of_nat a + 1)) <= 12)%nat /\
  ((12 <= n)%nat ->
   filtered_df (Some (Z.of_nat a + 1)%Z) n sched
   = filter_year sched (Z.of_nat a + 1)).
Proof.
  intros sched.
  assert (E : filter_year sched (Z.of_nat a + 1)
              = firstn 12 (skipn (12 * a) sched))
    by apply engine_filter_year.
  assert (L : (length (filter_year sched (Z.of_nat a + 1)) <= 12)%nat)
    by (rewrite E; apply firstn_le_length).
  repeat split; try assumption.
  intros Hn. unfold filtered_df. apply firstn_all2. lia.
Qed.

Lemma max_year_snoc (l : list PaymentRecord) (r : PaymentRecord) (m : Z) :
  max_year l = Some m -> max_year (l ++ [r]) = Some (Z.max m (Year r)).
Proof.
  unfold max_year. rewrite map_app.
  destruct (map Year l) as [|y ys]; [discriminate|].
  intros [= <-]. cbn. now rewrite fold_left_app.
Qed.

Lemma year_of_mono (i j : nat) : (i <= j)%nat -> (year_of i <= year_of j)%Z.
Proof.
  intros H. unfold year_of.
  assert (i / 12 <= j / 12)%nat by (apply Nat.Div0.div_le_mono; assumption).
  lia.
Qed.

Lemma after_max_year (N : nat) :
  max_year (schedule (after (S N))) = Some (year_of N).
Proof.
  induction N as [|N IH].
  - destruct (after_step 0) as (r & (_ & Hy & _) & -> & _).
    cbn. now rewrite Hy.
  - destruct (after_step (S N)) as (r & (_ & Hy & _) & -> & _).
    rewrite (max_year_snoc _ r _ IH), Hy. f_equal.
    apply Z.max_r, year_of_mono. lia.
Qed.

(** X12.  The years offered by the filter are [1 .. Y] with [Y] the year
    of the last record, and every offered year has at least one row. *)
Theorem year_options_nonempty (max_years : Z) (last : PaymentRecord) :
  let sched := result_schedule (calculate_amortization max_years) in
  iloc_last sched = Some last ->
  year_options sched = Some (range 1 (Year last + 1)) /\
  forall y, In y (range 1 (Year last + 1)) -> filter_year sched y <> [].
Proof.
  intros sched H.
  destruct (engine_last max_years last H) as (N & _ & HL & _ & Hy & _).
  fold sched in HL.
  assert (Hs : sched = schedule (after (S N))).
  { destruct (engine_result max_years) as (M & _ & Hsch & _ & _ & _ & HM).
    unfold sched in HL |- *. rewrite HM in HL. now subst M. }
  split.
  - unfold year_options. rewrite Hs, after_max_year, Hy. reflexivity.
  - intros y Hin. unfold range in Hin. apply in_map_iff in Hin.
    destruct Hin as (a & <- & Ha). apply in_seq in Ha.
    rewrite Hy in Ha. unfold year_of in Ha.
    assert (Hle : (a <= N / 12)%nat) by lia.
    assert (Hlt : (12 * a < S N)%nat).
    { pose proof (Nat.div_mod_eq N 12). lia. }
    replace (1 + Z.of_nat a)%Z with (Z.of_nat a + 1)%Z by lia.
    unfold sched in HL |- *. rewrite engine_filter_year. intros E.
    apply (f_equal (@length _)) in E.
    rewrite length_firstn, length_skipn, HL in E. cbn [length] in E. lia.
Qed.


(** * Properties of the order of amounts *)

Section Ordered.

Context {L : Laws A}.

Lemma round_nonneg (x : num) (n : nat) : 0 <= x -> 0 <= round x n.
Proof.
  intros H. destruct (round_zero n) as [_ H0].
  eapply num_le_trans; [exact H0 | now apply round_mono].
Qed.

Lemma round_nonpos (x : num) (n : nat) : x <= 0 -> round x n <= 0.
Proof.
  intros H. destruct (round_zero n) as [H0 _].
  eapply num_le_trans; [apply round_mono; exact H | exact H0].
Qed.

Lemma round_not_neg (x : num) (n : nat) :
  ltb x 0 = false -> ltb (round x n) 0 = false.
Proof.
  intros H. destruct (ltb (round x n) 0) eqn:E; [|reflexivity].
  apply round_neg in E. congruence.
Qed.

(** No period leaves a negative balance: a clamped period takes the
    balance itself, any other a principal part the test found not to
    exceed it. *)
Lemma after_not_neg (k : nat) :
  ltb (remaining_principal (after (S k))) 0 = false.
Proof.
  destruct (after_step k) as (r & (_ & _ & _ & Hc & _) & _ & -> & _).
  destruct (ltb _ _) eqn:E; destruct Hc as [-> _].
  - apply sub_self_not_neg.
  - apply sub_not_neg. exact E.
Qed.

(** A period that ends the iteration leaves the balance at zero. *)
Lemma paid_off_zero (k : nat) :
  paid_off (after (S k)) = true ->
  remaining_principal (after (S k)) <= 0 /\
  ltb (remaining_principal (after (S k))) 0 = false /\
  round (remaining_principal (after (S k))) 2 <= 0 /\
  ltb (round (remaining_principal (after (S k))) 2) 0 = false.
Proof.
  intros H. unfold paid_off in H. pose proof (after_not_neg k) as Hn.
  repeat split; try assumption.
  - now apply round_nonpos.
  - now apply round_not_neg.
Qed.

Section Covered.

(** Finite numbers, none negative, and a first period whose rounded
    principal part is not negative. *)
Hypothesis principal_finite : finite principal = true.
Hypothesis rate_finite : finite monthly_rate = true.
Hypothesis payment_finite : finite monthly_payment = true.
Hypothesis principal_nonneg : 0 <= principal.
Hypothesis rate_nonneg : 0 <= monthly_rate.
Hypothesis covered :
  0 <= round (monthly_payment - round (principal * monthly_rate) 2) 2.

Lemma covered_emits (st : state) (y : Z) (r : PaymentRecord) :
  emits st y r ->
  0 <= remaining_principal st -> remaining_principal st <= principal ->
  0 <= Interest r /\
  Interest r <= round (principal * monthly_rate) 2 /\
  0 <= remaining_principal st - Principal r /\
  remaining_principal st - Principal r <= remaining_principal st.
Proof.
  intros (_ & _ & Hi & Hc & _) Hlo Hhi.
  set (b := remaining_principal st) in *.
  assert (Hfb : finite b = true).
  { apply (num_finite_between 0 b principal); auto. apply num_finite_zero. }
  assert (Hbb : b <= b) by now apply num_finite_le.
  assert (Hint : Interest r <= round (principal * monthly_rate) 2).
  { rewrite Hi. apply round_mono. now apply mul_mono_finite. }
  assert (Hc0 : 0 <= round (monthly_payment - Interest r) 2).
  { eapply num_le_trans; [exact covered|].
    apply round_mono. now apply sub_anti. }
  split; [rewrite Hi; apply round_nonneg; now apply mul_nonneg|].
  split; [exact Hint|].
  destruct (ltb b _) eqn:E; destruct Hc as [-> _].
  - split; [now apply sub_nonneg|].
    eapply num_le_trans; [now apply sub_self_le | exact Hlo].
  - assert (Hle : round (monthly_payment - Interest r) 2 <= b).
    { apply num_total; [exact E | exact Hbb |].
      eapply num_le_refl_r. exact Hc0. }
    split; [now apply sub_nonneg | now apply sub_le].
Qed.

Lemma covered_after (k : nat) :
  0 <= remaining_principal (after k) /\
  remaining_principal (after k) <= principal /\
  remaining_principal (after (S k)) <= remaining_principal (after k).
Proof.
  induction k as [|k (IH0 & IH1 & IH2)].
  - assert (H0 : 0 <= remaining_principal (after 0)) by exact principal_nonneg.
    assert (H1 : remaining_principal (after 0) <= principal)
      by (apply num_finite_le; exact principal_finite).
    split; [exact H0|]. split; [exact H1|].
    destruct (after_step 0) as (r & He & _ & -> & _).
    now apply (covered_emits _ _ _ He).
  - destruct (after_step k) as (r & He & _ & Hr & _).
    destruct (covered_emits _ _ _ He IH0 IH1) as (_ & _ & Hn & _).
    rewrite <- Hr in Hn.
    assert (H1 : remaining_principal (after (S k)) <= principal)
      by (eapply num_le_trans; [exact IH2 | exact IH1]).
    split; [exact Hn|]. split; [exact H1|].
    destruct (after_step (S k)) as (r' & He' & _ & -> & _).
    now apply (covered_emits _ _ _ He').
Qed.

End Covered.



Section Short.

(** The first period's rounded principal part is negative. *)
Hypothesis payment_finite : finite monthly_payment = true.
Hypothesis principal_nonneg : 0 <= principal.
Hypothesis rate_nonneg : 0 <= monthly_rate.
Hypothesis payment_nonneg : 0 <= monthly_payment.
Hypothesis short :
  round (monthly_payment - round (principal * monthly_rate) 2) 2 < 0.

Lemma short_interest_pos : 0 < principal * monthly_rate.
Proof.
  apply (round_pos _ 2).
  eapply num_le_lt_trans; [exact payment_nonneg|].
  apply sub_neg_lt. apply (round_neg _ 2). exact short.
Qed.

Lemma short_emits (st : state) (y : Z) (r : PaymentRecord) :
  emits st y r ->
  principal <= remaining_principal st ->
  Principal r = round (monthly_payment - Interest r) 2 /\
  Principal r < 0 /\
  Payment r = monthly_payment /\
  remaining_principal st <= remaining_principal st - Principal r /\
  0 < remaining_principal st - Principal r.
Proof.
  intros (_ & _ & Hi & Hc & _) Hb.
  set (b := remaining_principal st) in *.
  assert (Hb0 : 0 <= b) by exact (num_le_trans _ _ _ principal_nonneg Hb).
  assert (Hint : round (principal * monthly_rate) 2 <= Interest r).
  { rewrite Hi. apply round_mono.
    apply mul_mono_pos; auto. apply short_interest_pos. }
  assert (Hneg : round (monthly_payment - Interest r) 2 < 0).
  { eapply num_le_lt_trans; [|exact short].
    apply round_mono. now apply sub_anti. }
  assert (E : ltb b (round (monthly_payment - Interest r) 2) = false).
  { apply num_le_not_lt. apply num_lt_le.
    exact (num_lt_le_trans _ _ _ Hneg Hb0). }
  rewrite E in Hc. destruct Hc as [Hp Ha]. rewrite Hp.
  repeat split; auto.
  - now apply sub_neg_le.
  - now apply sub_neg_pos.
Qed.

Lemma short_after (k : nat) :
  principal <= remaining_principal (after k) /\
  remaining_principal (after k) <= remaining_principal (after (S k)) /\
  0 < remaining_principal (after (S k)).
Proof.
  induction k as [|k (IH0 & IH1 & IH2)].
  - assert (H0 : principal <= remaining_principal (after 0))
      by (eapply num_le_refl_r; exact principal_nonneg).
    split; [exact H0|].
    destruct (after_step 0) as (r & He & _ & -> & _).
    destruct (short_emits _ _ _ He H0) as (_ & _ & _ & H1 & H2). now split.
  - assert (HS : principal <= remaining_principal (after (S k)))
      by exact (num_le_trans _ _ _ IH0 IH1).
    split; [exact HS|].
    destruct (after_step (S k)) as (r & He & _ & -> & _).
    destruct (short_emits _ _ _ He HS) as (_ & _ & _ & H1 & H2). now split.
Qed.

Lemma short_never_paid_off (j : nat) :
  (1 <= j)%nat -> paid_off (after j) = false.
Proof.
  intros Hj. destruct j as [|j]; [lia|].
  apply num_lt_not_le. apply (short_after j).
Qed.

End Short.


(** ** The balance at the end *)



End Ordered.
End Engine.

(** * Exact rationals *)

Local Open Scope Q_scope.

(** ** Rounding *)

Lemma round_half_even_cases (x : Q) :
  (x - inject_Z (Qfloor x) < 1 # 2 /\ round_half_even x = Qfloor x) \/
  (x - inject_Z (Qfloor x) == 1 # 2 /\
     round_half_even x = (if Z.even (Qfloor x) then Qfloor x else Qfloor x + 1)%Z) \/
  (1 # 2 < x - inject_Z (Qfloor x) /\ round_half_even x = (Qfloor x + 1)%Z).
Proof.
  unfold round_half_even.
  destruct (Qcompare (x - inject_Z (Qfloor x)) (1 # 2)) eqn:E.
  - right; left. split; [now apply Qeq_alt | reflexivity].
  - left. split; [now apply Qlt_alt | reflexivity].
  - right; right. split; [now apply Qgt_alt | reflexivity].
Qed.

Lemma Qfloor_bounds (x : Q) :
  inject_Z (Qfloor x) <= x /\ x < inject_Z (Qfloor x) + 1.
Proof.
  split; [apply Qfloor_le|].
  generalize (Qlt_floor x). rewrite inject_Z_plus. auto.
Qed.

#[export] Instance round_half_even_comp : Proper (Qeq ==> eq) round_half_even.
Proof.
  intros x y E. unfold round_half_even.
  rewrite (Qfloor_comp x y E).
  assert (Ec : Qcompare (x - inject_Z (Qfloor y)) (1 # 2)
               = Qcompare (y - inject_Z (Qfloor y)) (1 # 2))
    by (apply Qcompare_comp; [rewrite E|]; reflexivity).
  now rewrite Ec.
Qed.

Lemma round_half_even_near (x : Q) :
  inject_Z (round_half_even x) - (1 # 2) <= x /\
  x <= inject_Z (round_half_even x) + (1 # 2).
Proof.
  destruct (Qfloor_bounds x) as [Hl Hu].
  destruct (round_half_even_cases x) as [[H ->] | [[H ->] | [H ->]]];
    try destruct (Z.even (Qfloor x)); rewrite ?inject_Z_plus;
    change (inject_Z 1) with 1;
    set (f := inject_Z (Qfloor x)) in *; clearbody f; split; lra.
Qed.

Lemma round_half_even_mono (x y : Q) :
  x <= y -> (round_half_even x <= round_half_even y)%Z.
Proof.
  intros Hxy.
  assert (Hf := Qfloor_resp_le x y Hxy).
  destruct (Qfloor_bounds x) as [Hxl Hxu], (Qfloor_bounds y) as [Hyl Hyu].
  assert (Hx : (Qfloor x <= round_half_even x <= Qfloor x + 1)%Z).
  { destruct (round_half_even_cases x) as [[_ ->] | [[_ ->] | [_ ->]]];
      try destruct (Z.even _); lia. }
  assert (Hy : (Qfloor y <= round_half_even y <= Qfloor y + 1)%Z).
  { destruct (round_half_even_cases y) as [[_ ->] | [[_ ->] | [_ ->]]];
      try destruct (Z.even _); lia. }
  destruct (Z.eq_dec (Qfloor x) (Qfloor y)) as [E | N]; [|lia].
  destruct (round_half_even_cases x) as [[Hx' Ex] | [[Hx' Ex] | [Hx' Ex]]];
    destruct (round_half_even_cases y) as [[Hy' Ey] | [[Hy' Ey] | [Hy' Ey]]];
    rewrite Ex, Ey; rewrite E in *; try destruct (Z.even _); try lia;
    exfalso; clear Ex Ey Hx Hy;
    set (f := inject_Z (Qfloor y)) in *; clearbody f; lra.
Qed.

Lemma round_half_even_Z (z : Z) : round_half_even (inject_Z z) = z.
Proof.
  unfold round_half_even. rewrite Qfloor_Z.
  assert (E : Qcompare (inject_Z z - inject_Z z) (1 # 2) = Lt)
    by (apply (proj1 (Qlt_alt _ _)); generalize (inject_Z z); intros q; lra).
  now rewrite E.
Qed.

#[export] Instance round_exact_comp : Proper (Qeq ==> eq ==> Qeq) round_exact.
Proof.
  intros x y E n ? <-. unfold round_exact.
  assert (E' : x * inject_Z (Z.pos (pow10 n)) == y * inject_Z (Z.pos (pow10 n)))
    by now rewrite E.
  now rewrite (round_half_even_comp _ _ E').
Qed.

Lemma Qmake_inject (z : Z) (p : positive) :
  z # p == inject_Z z / inject_Z (Zpos p).
Proof. apply Qmake_Qdiv. Qed.

Lemma round_exact_mono (x y : Q) (n : nat) : x <= y -> round_exact x n <= round_exact y n.
Proof.
  intros H. unfold round_exact, Qle; simpl.
  apply Z.mul_le_mono_nonneg_r; [lia|].
  apply round_half_even_mono.
  apply Qmult_le_compat_r; [assumption|]. unfold Qle; simpl; lia.
Qed.

(** A whole number of [10^-n] units is left as it is. *)
Lemma round_exact_units (z : Z) (n : nat) : round_exact (z # pow10 n) n == z # pow10 n.
Proof.
  unfold round_exact.
  assert (E : (z # pow10 n) * inject_Z (Z.pos (pow10 n)) == inject_Z z).
  { unfold Qeq, inject_Z; simpl. lia. }
  now rewrite (round_half_even_comp _ _ E), round_half_even_Z.
Qed.

Lemma round_exact_idem (x : Q) (n : nat) : round_exact (round_exact x n) n == round_exact x n.
Proof. unfold round_exact at 2 3. apply round_exact_units. Qed.

Lemma round_exact_0 (n : nat) : round_exact 0 n == 0.
Proof.
  assert (E : 0 == 0 # pow10 n) by reflexivity.
  rewrite E at 1. rewrite round_exact_units. reflexivity.
Qed.

(** [round_exact(x, 2)] is within half a cent of [x]. *)
Lemma round2_near (x : Q) :
  round_exact x 2 - (1 # 200) <= x /\ x <= round_exact x 2 + (1 # 200).
Proof.
  destruct (round_half_even_near (x * inject_Z (Z.pos (pow10 2)))) as [Hl Hu].
  unfold round_exact. set (k := round_half_even _) in *.
  change (pow10 2) with 100%positive in *.
  assert (E : k # 100 == inject_Z k * (1 # 100))
    by (unfold Qeq, inject_Z; simpl; lia).
  rewrite E. change (inject_Z 100) with (100 # 1) in *.
  clear E. set (q := inject_Z k) in *. clearbody q. split; lra.
Qed.

Lemma round_exact_nonneg (x : Q) (n : nat) : 0 <= x -> 0 <= round_exact x n.
Proof. intros H. rewrite <- (round_exact_0 n). now apply round_exact_mono. Qed.

Lemma round_exact_neg_inv (x : Q) (n : nat) : round_exact x n < 0 -> x < 0.
Proof.
  intros H. destruct (Qlt_le_dec x 0) as [L | G]; [assumption|].
  apply (round_exact_nonneg x n) in G. lra.
Qed.

(** ** Comparisons *)

Lemma Qgt_bool_true (a b : Q) : Qgt_bool a b = true <-> b < a.
Proof.
  unfold Qgt_bool. rewrite negb_true_iff, <- not_true_iff_false, Qle_bool_iff.
  split; [apply Qnot_le_lt | apply Qlt_not_le].
Qed.

Lemma Qgt_bool_false (a b : Q) : Qgt_bool a b = false <-> a <= b.
Proof.
  unfold Qgt_bool. rewrite negb_false_iff. apply Qle_bool_iff.
Qed.


Lemma round_minus_half_cent : round_exact (- (1 # 200)) 2 == 0.
Proof. reflexivity. Qed.

(** Whole numbers of cents. *)
Lemma cents_minus (a b : Z) : (a # 100) - (b # 100) == (a - b) # 100.
Proof. unfold Qeq, Qminus, Qplus, Qopp; cbn. lia. Qed.

Lemma round2_cents (x : Q) : exists c : Z, round_exact x 2 = c # 100.
Proof. unfold round_exact. eexists. reflexivity. Qed.

(** ** How a payment splits *)

Lemma round2_of_cents (c : Z) : round_exact (c # 100) 2 == c # 100.
Proof. change 100%positive with (pow10 2). apply round_exact_units. Qed.


Lemma round_exact_nonpos (x : Q) (n : nat) : x <= 0 -> round_exact x n <= 0.
Proof. intros H. rewrite <- (round_exact_0 n). now apply round_exact_mono. Qed.

(** ** The exact instance *)

Lemma exact_ltb_true (x y : Q) : @ltb exact x y = true <-> x < y.
Proof. apply Qgt_bool_true. Qed.

Lemma exact_ltb_false (x y : Q) : @ltb exact x y = false <-> y <= x.
Proof. apply Qgt_bool_false. Qed.

Lemma exact_leb_true (x y : Q) : @leb exact x y = true <-> x <= y.
Proof. apply Qle_bool_iff. Qed.

Lemma exact_leb_false (x y : Q) : @leb exact x y = false <-> y < x.
Proof.
  cbn. rewrite <- not_true_iff_false, Qle_bool_iff.
  split; [apply Qnot_le_lt | apply Qlt_not_le].
Qed.

(** Turns the comparisons of the exact instance into those of [Q]. *)
Ltac exact_order :=
  cbn [num zero add sub mul round ltb leb finite exact] in *;
  repeat match goal with
  | H : Qgt_bool _ _ = true |- _ => apply Qgt_bool_true in H
  | H : Qgt_bool _ _ = false |- _ => apply Qgt_bool_false in H
  | H : Qle_bool _ _ = true |- _ => apply Qle_bool_iff in H
  | H : Qle_bool _ _ = false |- _ => apply exact_leb_false in H
  | |- Qgt_bool _ _ = true => apply Qgt_bool_true
  | |- Qgt_bool _ _ = false => apply Qgt_bool_false
  | |- Qle_bool _ _ = true => apply Qle_bool_iff
  | |- Qle_bool _ _ = false => apply exact_leb_false
  end.

#[export] Instance exact_laws : Laws exact.
Proof.
  constructor; intros; exact_order; try reflexivity; try lra.
  - now apply round_exact_mono.
  - pose proof (round_exact_0 n). split; exact_order; lra.
  - now apply (round_exact_neg_inv x n).
  - destruct (Qlt_le_dec 0 x) as [G | G]; [assumption|].
    apply (round_exact_nonpos x n) in G. lra.
  - now apply Qmult_le_compat_r.
  - now apply Qmult_le_compat_r.
  - now apply Qmult_le_0_compat.
Qed.

(** ** The engine on exact rationals *)

Section Exact.

Variables (principal monthly_rate monthly_payment : Q).

#[local] Abbreviation calculate_amortization :=
  (@calculate_amortization exact principal monthly_rate monthly_payment).
#[local] Abbreviation after :=
  (@after exact principal monthly_rate monthly_payment).
#[local] Abbreviation balance_after := (@balance_after exact principal).
#[local] Abbreviation emits := (@emits exact monthly_rate monthly_payment).
#[local] Abbreviation round := (@round exact).
#[local] Abbreviation PaymentRecord := (PaymentRecord (@num exact)).
#[local] Abbreviation state := (state (@num exact)).
#[local] Abbreviation engine_record :=
  (@engine_record exact principal monthly_rate monthly_payment).
#[local] Abbreviation engine_result :=
  (@engine_result exact principal monthly_rate monthly_payment).
#[local] Abbreviation after_running :=
  (@after_running exact principal monthly_rate monthly_payment).
#[local] Abbreviation after_step :=
  (@after_step exact principal monthly_rate monthly_payment).
#[local] Abbreviation record_balance :=
  (@record_balance exact principal monthly_rate monthly_payment).

Lemma paid_off_true (st : state) :
  paid_off st = true <-> remaining_principal st <= 0.
Proof. apply Qle_bool_iff. Qed.

Lemma paid_off_false (st : state) :
  paid_off st = false <-> 0 < remaining_principal st.
Proof. apply exact_leb_false. Qed.

(** A clamped period leaves nothing to pay. *)
Lemma clamp_pays_off (st : state) (y : Z) (r : PaymentRecord) :
  emits st y r ->
  remaining_principal st < round (monthly_payment - Interest r) 2 ->
  remaining_principal st - Principal r == 0.
Proof.
  intros (_ & _ & _ & Hc & _) E.
  destruct (ltb _ _) eqn:E' in Hc.
  - destruct Hc as [-> _]. cbn. ring.
  - exfalso. exact_order. lra.
Qed.

(** Before the last record no period is clamped. *)
Lemma unclamped_before_last (max_years : Z) (k : nat) (r : PaymentRecord) :
  nth_error (result_schedule (calculate_amortization max_years)) k = Some r ->
  (S k < length (result_schedule (calculate_amortization max_years)))%nat ->
  round (monthly_payment - Interest r) 2
  <= balance_after (firstn k (result_schedule (calculate_amortization max_years))).
Proof.
  intros H HL.
  destruct (engine_record max_years k r H)
    as (N & (_ & Hb & _) & HN & Hk & He & Hpre & _ & Hrem).
  rewrite Hpre. destruct (after_running k) as [<- _].
  destruct (Qlt_le_dec (remaining_principal (after k))
              (round (monthly_payment - Interest r) 2)) as [E | E];
    [exfalso | exact E].
  assert (Hz := clamp_pays_off _ _ _ He E).
  assert (Hp : paid_off (after (S k)) = false) by (apply Hb; lia).
  apply paid_off_false in Hp. rewrite Hrem in Hp. cbn in Hp, Hz.
  rewrite Hz in Hp.
  now apply Qlt_irrefl in Hp.
Qed.


(** * The claims on exact rationals *)



(** ** Conservation of principal *)

Lemma principal_conservation (rs : list PaymentRecord) :
  sum_principal rs == principal - balance_after rs.
Proof.
  induction rs as [|r rs IH] using rev_ind.
  - unfold sum_principal, balance_after. cbn. ring.
  - rewrite sum_principal_snoc, balance_after_snoc. cbn [add sub exact].
    rewrite IH. ring.
Qed.

Lemma after_cents (k : nat) :
  (exists c : Z, principal == c # 100) ->
  exists c : Z, remaining_principal (after k) == c # 100.
Proof.
  intros Hp. induction k as [|k (c & IH)]; [exact Hp|].
  destruct (after_step k) as (r & (_ & _ & _ & Hc & _) & _ & -> & _).
  cbn [num zero add sub mul round ltb leb finite exact] in *.
  destruct (Qgt_bool _ _).
  - destruct Hc as [-> _]. exists 0%Z. unfold Qeq; cbn. ring.
  - destruct Hc as [-> _].
    destruct (round2_cents (monthly_payment - Interest r)) as (c' & ->).
    exists (c - c')%Z. rewrite IH. apply cents_minus.
Qed.


End Exact.

(** ** The engine on Python's numbers *)

Lemma scaled_pos (m : positive) (e : Z) (ndigits : nat) :
  (0 < scaled m e ndigits)%Q.
Proof.
  unfold scaled. destruct (0 <=? e)%Z eqn:E.
  - apply Z.leb_le in E.
    assert (0 < 2 ^ e)%Z by (apply Z.pow_pos_nonneg; lia).
    change 0%Q with (inject_Z 0). rewrite <- Zlt_Qlt.
    apply Z.mul_pos_pos; [apply Z.mul_pos_pos; lia | assumption].
  - unfold Qlt. cbn. lia.
Qed.

(** Against the [int] [0] the exact comparison is the comparison with the
    float [0.0]. *)
Lemma leb_float_zero (x : float) :
  Py.leb (Py.PyFloat x) (Py.PyInt 0) = PrimFloat.leb x PrimFloat.zero.
Proof.
  cbn [Py.leb]. unfold Py.float_compare_int. rewrite leb_spec.
  change (Prim2SF PrimFloat.zero) with (S754_zero false).
  destruct (Prim2SF x) as [s|s| |s m e]; cbn; try reflexivity.
  pose proof (scaled_pos m e 0) as Hv.
  destruct s.
  - assert (H : (- scaled m e 0 < inject_Z 0)%Q).
    { change (inject_Z 0) with 0%Q.
      apply Qopp_lt_compat in Hv. exact Hv. }
    apply (proj1 (Qlt_alt _ _)) in H. now rewrite H.
  - assert (H : (inject_Z 0 < scaled m e 0)%Q) by exact Hv.
    apply (proj1 (Qgt_alt _ _)) in H. now rewrite H.
Qed.

Section PythonFloats.

Variables (principal monthly_rate monthly_payment : float).

#[local] Abbreviation rate := (Py.PyFloat monthly_rate).
#[local] Abbreviation payment := (Py.PyFloat monthly_payment).

Lemma period_float (fresh : bool) (year : Z) (st : state float) :
  (fresh = true ->
   total_interest_paid st = PrimFloat.zero /\
   total_principal_paid st = PrimFloat.zero) ->
  Py.period rate payment year (float_state fresh st)
  = Py.Returned
      (float_state false (period monthly_rate monthly_payment year st)).
Proof.
  intros H. destruct st as [sched rem ti tp n].
  unfold Py.period, period, float_state.
  cbn -[round_binary64] in *.
  destruct (PrimFloat.ltb rem _) eqn:E; destruct fresh;
    try (destruct H as [-> ->]; [reflexivity|]);
    cbn -[round_binary64]; rewrite map_app; reflexivity.
Qed.

Lemma paid_off_float (fresh : bool) (st : state float) :
  Py.paid_off (float_state fresh st) = paid_off st.
Proof. apply leb_float_zero. Qed.

Lemma month_loop_float (months : list Z) (year : Z) (fresh : bool)
    (st : state float) :
  (fresh = true ->
   total_interest_paid st = PrimFloat.zero /\
   total_principal_paid st = PrimFloat.zero) ->
  Py.month_loop rate payment months year (float_state fresh st)
  = Py.Returned
      (float_flow match months with [] => fresh | _ => false end
         (month_loop monthly_rate monthly_payment months year st)).
Proof.
  revert fresh st.
  induction months as [|m months IH]; intros fresh st H; [reflexivity|].
  cbn [Py.month_loop month_loop].
  rewrite (period_float fresh year st H), paid_off_float.
  destruct (paid_off _); [reflexivity|].
  rewrite IH by discriminate. now destruct months.
Qed.

Lemma year_loop_float (years : list Z) (fresh : bool)
    (st : state float) :
  (fresh = true ->
   total_interest_paid st = PrimFloat.zero /\
   total_principal_paid st = PrimFloat.zero) ->
  Py.year_loop rate payment years (float_state fresh st)
  = Py.Returned
      (float_flow match years with [] => fresh | _ => false end
         (year_loop monthly_rate monthly_payment years st)).
Proof.
  revert fresh st.
  induction years as [|y years IH]; intros fresh st H; [reflexivity|].
  cbn [Py.year_loop year_loop].
  rewrite (month_loop_float _ y fresh st H).
  change (match range 1 13 with [] => fresh | _ => false end) with false.
  destruct (month_loop _ _ _ _ _) as [st'|st']; cbn [float_flow];
    [|reflexivity].
  rewrite IH by discriminate. now destruct years.
Qed.

(** On float arguments the function computes what the engine computes on
    binary64, every number of the result a float. *)
Lemma python_floats (max_years : Z) :
  (1 <= max_years)%Z ->
  Py.calculate_amortization (Py.PyFloat principal) rate payment max_years
  = Py.Returned
      (float_result
         (calculate_amortization principal monthly_rate monthly_payment
            max_years)).
Proof.
  intros Hy. unfold Py.calculate_amortization, calculate_amortization.
  change (Py.init (Py.PyFloat principal)) with (float_state true (init principal)).
  rewrite year_loop_float by (intros _; split; reflexivity).
  assert (E : match range 1 (max_years + 1) with
              | [] => true
              | _ => false
              end = false).
  { unfold range. replace (max_years + 1 - 1)%Z with max_years by lia.
    destruct (Z.to_nat max_years) eqn:En; [lia|reflexivity]. }
  rewrite E.
  now destruct (year_loop _ _ _ _) as [st|st].
Qed.

End PythonFloats.

(** With [max_years < 1] the outer range is empty. *)
Lemma python_no_years (principal monthly_rate monthly_payment : Py.pynum)
    (max_years : Z) :
  (max_years < 1)%Z ->
  Py.calculate_amortization principal monthly_rate monthly_payment max_years
  = Py.Returned ([], Py.PyInt 0, Py.PyInt 0, 0%Z).
Proof.
  intros H. unfold Py.calculate_amortization, range.
  replace (Z.to_nat (max_years + 1 - 1)) with 0%nat by lia.
  reflexivity.
Qed.

Lemma range_cons (max_years : Z) :
  (1 <= max_years)%Z ->
  exists years, range 1 (max_years + 1) = 1%Z :: years.
Proof.
  intros H. unfold range.
  replace (max_years + 1 - 1)%Z with max_years by lia.
  destruct (Z.to_nat max_years) eqn:En; [lia|].
  cbn [seq map]. eexists. reflexivity.
Qed.

(** *** Arguments of mixed kinds *)

Lemma arith_float_r (int_op : Z -> Z -> Z)
    (float_op : float -> float -> float) (a : Py.pynum) (y : float) :
  Py.fits a = true ->
  exists f, Py.arith int_op float_op a (Py.PyFloat y)
            = Py.Returned (Py.PyFloat f).
Proof.
  destruct a as [z|x]; cbn [Py.fits Py.arith]; intros H.
  - destruct (Py.float_of_int z) as [f|e]; [|discriminate].
    eexists. reflexivity.
  - eexists. reflexivity.
Qed.

Lemma arith_float_l (int_op : Z -> Z -> Z)
    (float_op : float -> float -> float) (x : float) (b : Py.pynum) :
  Py.fits b = true ->
  exists f, Py.arith int_op float_op (Py.PyFloat x) b
            = Py.Returned (Py.PyFloat f).
Proof.
  destruct b as [z|y]; cbn [Py.fits Py.arith]; intros H.
  - destruct (Py.float_of_int z) as [f|e]; [|discriminate].
    eexists. reflexivity.
  - eexists. reflexivity.
Qed.

Lemma arith_unfit (int_op : Z -> Z -> Z)
    (float_op : float -> float -> float) (a : Py.pynum) (y : float) :
  Py.fits a = false ->
  Py.arith int_op float_op a (Py.PyFloat y) = Py.Raised Py.OverflowError.
Proof.
  destruct a as [z|x]; cbn [Py.fits Py.arith]; intros H; [|discriminate].
  now destruct (Py.float_of_int z) as [f|[]].
Qed.

Section PythonFloatRate.

Variables (principal monthly_payment : Py.pynum) (monthly_rate : float).

#[local] Abbreviation rate := (Py.PyFloat monthly_rate).

Lemma period_fits (year : Z) (st : state Py.pynum) :
  Py.fits monthly_payment = true ->
  fit_state st ->
  exists st', Py.period rate monthly_payment year st = Py.Returned st' /\
              (Py.paid_off st' = false -> fit_state st').
Proof.
  intros Hm (Hr & Hi & Hp). unfold Py.period, Py.mul, Py.sub, Py.add.
  destruct (arith_float_r Z.mul PrimFloat.mul _ monthly_rate Hr) as (x & ->).
  cbn [Py.bind Py.round].
  destruct (arith_float_r Z.sub PrimFloat.sub _ (round_binary64 x 2) Hm)
    as (y & ->).
  cbn [Py.bind Py.round].
  destruct (arith_float_r Z.add PrimFloat.add _ (round_binary64 x 2) Hi)
    as (ti & Eti).
  destruct (Py.gtb _ _).
  - destruct (arith_float_l Z.add PrimFloat.add (round_binary64 x 2) _ Hr)
      as (a & ->).
    cbn [Py.bind fst snd]. rewrite Eti. cbn [Py.bind].
    destruct (remaining_principal st) as [z|f] eqn:Er.
    + assert (Ez : Py.paid_off
                     {| schedule := [];
                        remaining_principal := Py.PyInt (z - z);
                        total_interest_paid := Py.PyInt 0;
                        total_principal_paid := Py.PyInt 0;
                        month_num := 0 |} = true).
      { unfold Py.paid_off. cbn [remaining_principal Py.leb].
        now rewrite Z.sub_diag. }
      destruct (total_principal_paid st) as [tz|tf].
      * cbn [Py.arith Py.bind]. eexists. split; [reflexivity|].
        unfold Py.paid_off in *. cbn [remaining_principal] in *.
        rewrite Ez. discriminate.
      * cbn [Py.fits] in Hr. cbn [Py.arith Py.bind].
        destruct (Py.float_of_int z) as [zf|e]; [|discriminate].
        cbn [Py.bind]. eexists. split; [reflexivity|].
        unfold Py.paid_off in *. cbn [remaining_principal] in *.
        rewrite Ez. discriminate.
    + destruct (arith_float_r Z.add PrimFloat.add _ f Hp) as (tp & ->).
      cbn [Py.bind Py.arith].
      eexists. split; [reflexivity|]. intros _. now repeat split.
  - cbn [Py.bind fst snd]. rewrite Eti. cbn [Py.bind].
    destruct (arith_float_r Z.add PrimFloat.add _ (round_binary64 y 2) Hp)
      as (tp & ->).
    cbn [Py.bind].
    destruct (arith_float_r Z.sub PrimFloat.sub _ (round_binary64 y 2) Hr)
      as (r' & ->).
    cbn [Py.bind].
    eexists. split; [reflexivity|]. intros _. now repeat split.
Qed.

Lemma month_loop_fits (months : list Z) (year : Z) (st : state Py.pynum) :
  Py.fits monthly_payment = true ->
  fit_state st ->
  exists f, Py.month_loop rate monthly_payment months year st
            = Py.Returned f /\
            match f with
            | Continue st' => fit_state st'
            | Return _ => True
            end.
Proof.
  intros Hm. revert st.
  induction months as [|m months IH]; intros st H.
  - eexists. split; [reflexivity|exact H].
  - cbn [Py.month_loop].
    destruct (period_fits year st Hm H) as (st' & -> & H').
    destruct (Py.paid_off st').
    + eexists. split; [reflexivity|exact I].
    + apply IH, H'. reflexivity.
Qed.

Lemma year_loop_fits (years : list Z) (st : state Py.pynum) :
  Py.fits monthly_payment = true ->
  fit_state st ->
  exists f, Py.year_loop rate monthly_payment years st = Py.Returned f.
Proof.
  intros Hm. revert st.
  induction years as [|y years IH]; intros st H.
  - eexists. reflexivity.
  - cbn [Py.year_loop].
    destruct (month_loop_fits (range 1 13) y st Hm H) as ([st'|st'] & -> & H').
    + apply IH, H'.
    + eexists. reflexivity.
Qed.

(** With a float rate the call returns when the principal and the payment
    can be converted... *)
Lemma python_returns (max_years : Z) :
  Py.fits principal = true ->
  Py.fits monthly_payment = true ->
  exists res,
    Py.calculate_amortization principal rate monthly_payment max_years
    = Py.Returned res.
Proof.
  intros Hp Hm. unfold Py.calculate_amortization.
  destruct (year_loop_fits (range 1 (max_years + 1)) (Py.init principal) Hm)
    as ([st|st] & ->).
  - now repeat split.
  - eexists. reflexivity.
  - eexists. reflexivity.
Qed.

(** ... and raises in its first period when one of them cannot. *)
Lemma python_raises (max_years : Z) :
  (1 <= max_years)%Z ->
  Py.fits principal && Py.fits monthly_payment = false ->
  Py.calculate_amortization principal rate monthly_payment max_years
  = Py.Raised Py.OverflowError.
Proof.
  intros Hy H. unfold Py.calculate_amortization.
  destruct (range_cons max_years Hy) as (years & ->).
  cbn [Py.year_loop].
  change (range 1 13) with (1 :: range 2 13)%Z. cbn [Py.month_loop].
  assert (E : Py.period rate monthly_payment 1 (Py.init principal)
              = Py.Raised Py.OverflowError).
  { unfold Py.period, Py.mul, Py.sub.
    cbn [Py.init remaining_principal].
    destruct (Py.fits principal) eqn:Hp.
    - cbn [andb] in H.
      destruct (arith_float_r Z.mul PrimFloat.mul _ monthly_rate Hp)
        as (x & ->).
      cbn [Py.bind Py.round].
      now rewrite (arith_unfit _ _ _ _ H).
    - now rewrite (arith_unfit _ _ _ _ Hp). }
  now rewrite E.
Qed.

End PythonFloatRate.

(** *** Arguments that are all [int] *)

Section PythonInts.

Variables (principal monthly_rate monthly_payment : Z).

#[local] Abbreviation irate := (Py.PyInt monthly_rate).
#[local] Abbreviation ipayment := (Py.PyInt monthly_payment).

Lemma period_ints (year : Z) (st : state Py.pynum) :
  int_state st ->
  exists st', Py.period irate ipayment year st = Py.Returned st' /\
              int_state st'.
Proof.
  intros (Hr & Hi & Hp). unfold Py.period, Py.mul, Py.sub, Py.add.
  destruct (remaining_principal st) as [z|f]; [|discriminate].
  destruct (total_interest_paid st) as [ti|f]; [|discriminate].
  destruct (total_principal_paid st) as [tp|f]; [|discriminate].
  cbn [Py.arith Py.bind Py.round].
  destruct (Py.gtb _ _); cbn [Py.arith Py.bind fst snd];
    eexists; (split; [reflexivity|]); now repeat split.
Qed.

Lemma month_loop_ints (months : list Z) (year : Z) (st : state Py.pynum) :
  int_state st ->
  exists f, Py.month_loop irate ipayment months year st = Py.Returned f /\
            match f with
            | Continue st' => int_state st'
            | Return _ => True
            end.
Proof.
  revert st. induction months as [|m months IH]; intros st H.
  - eexists. split; [reflexivity|exact H].
  - cbn [Py.month_loop].
    destruct (period_ints year st H) as (st' & -> & H').
    destruct (Py.paid_off st').
    + eexists. split; [reflexivity|exact I].
    + apply IH, H'.
Qed.

Lemma year_loop_ints (years : list Z) (st : state Py.pynum) :
  int_state st ->
  exists f, Py.year_loop irate ipayment years st = Py.Returned f.
Proof.
  revert st. induction years as [|y years IH]; intros st H.
  - eexists. reflexivity.
  - cbn [Py.year_loop].
    destruct (month_loop_ints (range 1 13) y st H) as ([st'|st'] & -> & H').
    + apply IH, H'.
    + eexists. reflexivity.
Qed.

Lemma python_ints (max_years : Z) :
  exists res,
    Py.calculate_amortization (Py.PyInt principal) irate ipayment max_years
    = Py.Returned res.
Proof.
  unfold Py.calculate_amortization.
  destruct (year_loop_ints (range 1 (max_years + 1))
              (Py.init (Py.PyInt principal))) as ([st|st] & ->).
  - now repeat split.
  - eexists. reflexivity.
  - eexists. reflexivity.
Qed.

End PythonInts.

(** C5.  The function checks none of its parameters and raises no
    [InvalidParameter]: its body has no [raise], and the one exception its
    arithmetic raises on [int] and [float] arguments is [OverflowError].
    With [max_years < 1] it returns the empty schedule with totals [0] and
    period count [0], whatever the amounts.  With a float rate, as the
    script passes, it returns for every principal and payment, of either
    sign, that is a float or an [int] within the range of floats, and with
    [1 <= max_years] it raises [OverflowError] for every other principal or
    payment.  On [int] arguments it returns. *)
Theorem no_parameter_check
    (principal monthly_rate monthly_payment : Py.pynum) (max_years : Z) :
  let call :=
    Py.calculate_amortization principal monthly_rate monthly_payment
      max_years in
  ((max_years < 1)%Z ->
   call = Py.Returned ([], Py.PyInt 0, Py.PyInt 0, 0%Z)) /\
  (Py.is_float monthly_rate = true ->
   if Py.fits principal && Py.fits monthly_payment
   then exists res, call = Py.Returned res
   else (1 <= max_years)%Z -> call = Py.Raised Py.OverflowError) /\
  (Py.is_int principal = true -> Py.is_int monthly_rate = true ->
   Py.is_int monthly_payment = true ->
   exists res, call = Py.Returned res).
Proof.
  intros call. split; [|split].
  - apply python_no_years.
  - destruct monthly_rate as [z|r]; [discriminate|]. intros _.
    destruct (Py.fits principal && Py.fits monthly_payment) eqn:E.
    + apply andb_prop in E. destruct E. now apply python_returns.
    + intros Hy. now apply python_raises.
  - destruct principal as [p|f]; [|discriminate].
    destruct monthly_rate as [r|f]; [|discriminate].
    destruct monthly_payment as [m|f]; [|discriminate].
    intros _ _ _. apply python_ints.
Qed.

(** * Concrete schedules *)

(** Closed goals, by evaluation. *)
Ltac by_eval :=
  lazymatch goal with
  | |- ~ (_ <= _)%Q => apply Qlt_not_le; vm_compute; reflexivity
  | |- ~ (_ < _)%Q => apply Qle_not_lt; vm_compute; discriminate
  | |- ~ (_ == _)%Q =>
      let H := fresh in intro H; vm_compute in H; discriminate
  | |- (_ <= _)%Q => vm_compute; discriminate
  | |- (_ <= _)%Z => vm_compute; discriminate
  | |- _ <> _ => vm_compute; discriminate
  | |- _ => vm_compute; reflexivity
  end.

(** The record at a position of a closed schedule, by evaluation. *)
Ltac take_record :=
  lazymatch goal with
  | |- exists r, ?row = Some r /\ _ =>
      let v := eval vm_compute in row in
      lazymatch v with
      | Some ?x => exists x
      end
  end.

(** ** On binary64, the numbers of the running script *)

Local Open Scope float_scope.

(** The defaults of the widgets: 90000 at 17% a year with payments of 1500
    is not paid off within 5 years (scenario A of the specification), and
    the two returned totals no longer add up to the 90000 paid. *)
Example scenario_A :
  let res := calculate_amortization (A:=binary64) 90000 (17 / 100 / 12) 1500 5 in
  length (result_schedule res) = 60%nat /\
  payoff_months res = 60%Z /\
  (exists r, nth_error (result_schedule res) 59 = Some r /\
             PrimFloat.ltb 0 (Remaining_Balance r) = true) /\
  PrimFloat.ltb 90000 (total_interest res + total_principal res) = true.
Proof.
  cbv zeta. split; [by_eval|]. split; [by_eval|]. split; [|by_eval].
  take_record. split; by_eval.
Qed.

(** Scenario B of the specification: ten payments of 1000 at rate 0. *)
Example scenario_B :
  let res := calculate_amortization (A:=binary64) 10000 0 1000 1 in
  length (result_schedule res) = 10%nat /\
  payoff_months res = 10%Z /\
  total_interest res = 0%float /\
  total_principal res = 10000%float /\
  map Remaining_Balance (skipn 9 (result_schedule res)) = [0%float].
Proof. vm_compute. repeat split. Qed.

(** Scenario C: the second period is clamped and pays the loan off. *)
Example scenario_C :
  map (fun r => (Month r, Payment r, Interest r, Principal r))
      (result_schedule
         (calculate_amortization (A:=binary64) 1000 (1 / 100) 1000 1))
  = [(1%Z, 1000, 10, 990); (2%Z, 10 / 100 + 10, 10 / 100, 10)]%float.
Proof. vm_compute. reflexivity. Qed.

(** The returned total is the running sum, the stored one its rounding:
    a clamped principal of [0.125] is returned as it is and stored as
    [0.12]. *)
Example returned_total_not_rounded :
  let res := calculate_amortization (A:=binary64) (1 / 8) 0 1 1 in
  total_principal res = (1 / 8)%float /\
  map Total_Principal (result_schedule res) = [(12 / 100)%float].
Proof. vm_compute. repeat split. Qed.

(** A payment equal to the unrounded interest: principal 1, rate and
    payment 0.375.  The interest is stored as 0.38, the principal part is
    -0.01 and the stored balance rises 1.01, 1.02, 1.03. *)
Example payment_equal_to_interest :
  let sched := result_schedule
                 (calculate_amortization (A:=binary64) 1 (3 / 8) (3 / 8) 1) in
  map Interest (firstn 3 sched) = [38 / 100; 38 / 100; 38 / 100]%float /\
  map Principal (firstn 3 sched) = [- (1 / 100); - (1 / 100); - (1 / 100)]%float /\
  map Remaining_Balance (firstn 3 sched)
  = [101 / 100; 102 / 100; 103 / 100]%float.
Proof. vm_compute. repeat split. Qed.

(** 7003 at 4.2% a year with payments of 263: after the 27 payments of the
    exact computation the float balance is still a hair above 0, and a
    28th and a 29th record follow. *)
Example phantom_periods :
  let res := calculate_amortization (A:=binary64) 7003 (42 / 1000 / 12) 263 27 in
  length (result_schedule res) = 29%nat /\
  PrimFloat.ltb 7003 (total_principal res) = true.
Proof. vm_compute. split; reflexivity. Qed.

(** ** On exact rationals *)

Local Open Scope Q_scope.

(** Scenario A on exact amounts: the totals add up to the 90000 paid. *)
Example scenario_A_exact :
  let res := calculate_amortization (A:=exact) 90000 (17 # 1200) 1500 5 in
  length (result_schedule res) = 60%nat /\
  total_interest res + total_principal res == 90000.
Proof. cbv zeta. split; by_eval. Qed.

(** ** On Python's numbers *)

Local Open Scope float_scope.

(** The call the script makes with the defaults of the widgets, an [int]
    principal and payment and a float rate: 60 records, float totals, and
    the payment of each record still the [int] it was given. *)
Example scenario_A_python :
  match Py.calculate_amortization (Py.PyInt 90000)
          (Py.PyFloat (17 / 100 / 12)) (Py.PyInt 1500) 5 with
  | Py.Returned
      (sched, Py.PyFloat total_interest, Py.PyFloat total_principal, months) =>
      length sched = 60%nat /\ months = 60%Z /\
      map Payment (firstn 2 sched) = [Py.PyInt 1500; Py.PyInt 1500] /\
      PrimFloat.ltb 90000 (total_interest + total_principal) = true
  | _ => False
  end.
Proof. vm_compute. repeat split. Qed.

(** An [int] principal of [10 ** 400] with a float rate: the first
    multiplication raises. *)
Example huge_principal_raises :
  Py.calculate_amortization (Py.PyInt (10 ^ 400)%Z) (Py.PyFloat (1 / 100))
    (Py.PyInt 100) 1
  = Py.Raised Py.OverflowError.
Proof. vm_compute. reflexivity. Qed.

(** ** Inputs on which a sentence of the specification fails *)


(** C5.  An [int] principal of [-5] with a float rate is not rejected: the
    call returns a schedule of one record.  Neither is a payment of [0], a
    rate of [-0.5] or zero years. *)
Lemma invalid_parameters_accepted :
  (-5 <= 0)%Z /\
  Py.calculate_amortization (Py.PyInt (-5)) (Py.PyFloat 0) (Py.PyInt 10) 1
  = Py.Returned
      ([mkRecord 1 1 (Py.PyFloat (-5)) (Py.PyFloat neg_zero) (Py.PyInt (-5))
          (Py.PyInt 0) (Py.PyFloat 0) (Py.PyInt (-5))],
       Py.PyFloat 0, Py.PyInt (-5), 1%Z) /\
  match Py.calculate_amortization (Py.PyInt 1000) (Py.PyFloat 0)
          (Py.PyInt 0) 1 with
  | Py.Returned res => length (fst (fst (fst res))) = 12%nat
  | Py.Raised _ => False
  end /\
  match Py.calculate_amortization (Py.PyInt 1000) (Py.PyFloat (- (1 / 2)))
          (Py.PyInt 100) 1 with
  | Py.Returned res => length (fst (fst (fst res))) = 3%nat
  | Py.Raised _ => False
  end /\
  Py.calculate_amortization (Py.PyInt 1000) (Py.PyFloat 0) (Py.PyInt 100) 0
  = Py.Returned ([], Py.PyInt 0, Py.PyInt 0, 0%Z).
Proof. repeat (split; [by_eval|]). by_eval. Qed.




(** ** The claims at concrete inputs *)

(** *** In floats *)

(** C2 at scenario B (stops at period 10) and at a loan that is never paid
    off (all 12 periods). *)
Lemma early_termination_witness :
  ((1 <= 10 <= 12 * Z.to_nat 1)%nat /\
   paid_off (after (A:=binary64) 10000 0 1000 10) = true /\
   (forall j, (1 <= j < 10)%nat ->
              paid_off (after (A:=binary64) 10000 0 1000 j) = false) /\
   calculate_amortization (A:=binary64) 10000 0 1000 1
     = result_of (after (A:=binary64) 10000 0 1000 10) /\
   length (result_schedule (calculate_amortization (A:=binary64) 10000 0 1000 1))
     = 10%nat /\
   payoff_months (calculate_amortization (A:=binary64) 10000 0 1000 1) = 10%Z) /\
  ((0 <= 1)%Z /\
   (forall j, (1 <= j <= 12 * Z.to_nat 1)%nat ->
              paid_off (after (A:=binary64) 1000 (1 / 2) 100 j) = false) /\
   calculate_amortization (A:=binary64) 1000 (1 / 2) 100 1
     = result_of (after (A:=binary64) 1000 (1 / 2) 100 (12 * Z.to_nat 1)) /\
   Z.of_nat (length (result_schedule
                       (calculate_amortization (A:=binary64) 1000 (1 / 2) 100 1)))
     = (1 * 12)%Z /\
   payoff_months (calculate_amortization (A:=binary64) 1000 (1 / 2) 100 1)
     = (1 * 12)%Z).
Proof.
  assert (H1 : (1 <= 10 <= 12 * Z.to_nat 1)%nat) by (cbn; lia).
  assert (H2 : paid_off (after (A:=binary64) 10000 0 1000 10) = true)
    by by_eval.
  assert (H3 : forall j, (1 <= j < 10)%nat ->
                         paid_off (after (A:=binary64) 10000 0 1000 j) = false).
  { intros j Hj.
    do 10 (destruct j as [|j]; [first [lia | by_eval]|]). lia. }
  assert (H4 : (0 <= 1)%Z) by lia.
  assert (H5 : forall j, (1 <= j <= 12 * Z.to_nat 1)%nat ->
                 paid_off (after (A:=binary64) 1000 (1 / 2) 100 j) = false).
  { intros j Hj. change (12 * Z.to_nat 1)%nat with 12%nat in Hj.
    do 13 (destruct j as [|j]; [first [lia | by_eval]|]). lia. }
  split.
  - split; [exact H1|]. split; [exact H2|]. split; [exact H3|].
    exact (proj1 (early_termination (A:=binary64) 10000 0 1000 1)
             10%nat H1 H2 H3).
  - split; [exact H4|]. split; [exact H5|].
    split;
      [exact (proj1 (proj2 (early_termination (A:=binary64)
                              1000 (1 / 2) 100 1) H5))|].
    exact (proj2 (proj2 (proj2 (proj2 (early_termination (A:=binary64)
                                         1000 (1 / 2) 100 1) H5))) H4).
Defined.

(** C4 at principal 1000, rate 0.01, payment 100, first record. *)
Lemma rounded_then_accumulated_witness :
  let res := calculate_amortization (A:=binary64) 1000 (1 / 100) 100 1 in
  exists r,
    nth_error (result_schedule res) 0 = Some r /\
    Interest r
    = round_binary64
        (balance_after (A:=binary64) 1000 (firstn 0 (result_schedule res))
         * (1 / 100)) 2.
Proof.
  cbv zeta. take_record. split; [by_eval|].
  refine (proj1 (proj1 (rounded_then_accumulated (A:=binary64)
                          1000 (1 / 100) 100 1) 0%nat _ _)).
  by_eval.
Defined.

(** C9 with one year. *)
Lemma periods_contiguous_witness :
  (1 <= 1)%Z /\
  result_schedule (calculate_amortization (A:=binary64) 10000 0 1000 1) <> [].
Proof.
  assert (H : (1 <= 1)%Z) by lia.
  split; [exact H|].
  exact (proj2 (proj2 (periods_contiguous (A:=binary64) 10000 0 1000 1)) H).
Defined.

(** C10 at principal 1000, rate 0.01, payment 100, second record. *)
Lemma snapshots_rounded_witness :
  let res := calculate_amortization (A:=binary64) 1000 (1 / 100) 100 1 in
  exists r,
    nth_error (result_schedule res) 1 = Some r /\
    Total_Interest r
    = round_binary64 (sum_interest (firstn 2 (result_schedule res))) 2 /\
    Total_Principal r
    = round_binary64 (sum_principal (firstn 2 (result_schedule res))) 2 /\
    Remaining_Balance r
    = round_binary64
        (balance_after (A:=binary64) 1000 (firstn 2 (result_schedule res))) 2.
Proof.
  cbv zeta. take_record. split; [by_eval|].
  refine (proj1 (snapshots_rounded (A:=binary64) 1000 (1 / 100) 100 1)
            1%nat _ _).
  by_eval.
Defined.

(** X1 at a two-year schedule: record 14 lies in year 2. *)
Lemma year_of_record_witness :
  exists r,
    nth_error
      (result_schedule (calculate_amortization (A:=binary64) 1000 (1 / 2) 100 2))
      13 = Some r /\
    Year r = ((Month r - 1) / 12 + 1)%Z /\ (1 <= Year r <= 2)%Z.
Proof.
  take_record. split; [by_eval|].
  refine (year_of_record (A:=binary64) 1000 (1 / 2) 100 2 13%nat _ _).
  by_eval.
Defined.

(** X7 at scenario B: paid off after 0 years and 10 months, in year 1. *)
Lemma payoff_time_witness :
  let res := calculate_amortization (A:=binary64) 10000 0 1000 1 in
  exists last,
    iloc_last (result_schedule res) = Some last /\
    (0 <= payoff_years (payoff_months res) <= 1)%Z /\
    Year last
    = (if (payoff_remaining_months (payoff_months res) =? 0)%Z
       then payoff_years (payoff_months res)
       else payoff_years (payoff_months res) + 1)%Z.
Proof.
  cbv zeta. take_record. split; [by_eval|].
  refine ((fun H => conj (proj1 H) (proj2 (proj2 H)))
            (payoff_time (A:=binary64) 10000 0 1000 1 _ _)).
  by_eval.
Defined.

(** X10: one year against two. *)
Lemma longer_term_extends_witness :
  (1 <= 2)%Z /\
  result_schedule (calculate_amortization (A:=binary64) 1000 (1 / 2) 100 1)
  = firstn
      (length (result_schedule
                 (calculate_amortization (A:=binary64) 1000 (1 / 2) 100 1)))
      (result_schedule (calculate_amortization (A:=binary64) 1000 (1 / 2) 100 2)).
Proof.
  assert (H : (1 <= 2)%Z) by lia.
  split; [exact H|].
  exact (longer_term_extends (A:=binary64) 1000 (1 / 2) 100 1 2 H).
Defined.

(** X11: year 2 of a two-year schedule, first 12 months shown. *)
Lemma filter_by_year_witness :
  let sched := result_schedule
                 (calculate_amortization (A:=binary64) 1000 (1 / 2) 100 2) in
  (12 <= 12)%nat /\
  filtered_df (Some (Z.of_nat 1 + 1)%Z) 12 sched
  = filter_year sched (Z.of_nat 1 + 1).
Proof.
  cbv zeta.
  assert (H : (12 <= 12)%nat) by lia.
  split; [exact H|].
  exact (proj2 (proj2 (filter_by_year (A:=binary64) 1000 (1 / 2) 100 2 1 12))
           H).
Defined.

(** X12: a two-year schedule offers years 1 and 2. *)
Lemma year_options_nonempty_witness :
  let sched := result_schedule
                 (calculate_amortization (A:=binary64) 1000 (1 / 2) 100 2) in
  exists last,
    iloc_last sched = Some last /\
    In 2%Z (range 1 (Year last + 1)) /\
    year_options sched = Some (range 1 (Year last + 1)) /\
    filter_year sched 2 <> [].
Proof.
  cbv zeta. take_record.
  match goal with
  | |- _ = Some ?l /\ _ => set (last := l)
  end.
  assert (E : iloc_last
                (result_schedule
                   (calculate_amortization (A:=binary64) 1000 (1 / 2) 100 2))
              = Some last) by by_eval.
  split; [exact E|].
  assert (Hin : In 2%Z (range 1 (Year last + 1))) by (vm_compute; auto).
  split; [exact Hin|].
  destruct (year_options_nonempty (A:=binary64) 1000 (1 / 2) 100 2 last E)
    as [Ho Hf].
  split; [exact Ho | exact (Hf 2%Z Hin)].
Defined.


(** *** On Python's numbers *)

(** C5 with zero years, and with a negative [int] principal and payment
    and a negative float rate. *)
Lemma no_parameter_check_witness :
  ((0 < 1)%Z /\
   Py.calculate_amortization (Py.PyInt (-5)) (Py.PyFloat 0) (Py.PyInt 10) 0
   = Py.Returned ([], Py.PyInt 0, Py.PyInt 0, 0%Z)) /\
  (Py.is_float (Py.PyFloat (- (1 / 2))) = true /\
   exists res,
     Py.calculate_amortization (Py.PyInt (-5)) (Py.PyFloat (- (1 / 2)))
       (Py.PyInt (-10)) 1
     = Py.Returned res).
Proof.
  assert (H : (0 < 1)%Z) by lia.
  assert (Hf : Py.is_float (Py.PyFloat (- (1 / 2))) = true) by reflexivity.
  split.
  - split; [exact H|].
    exact (proj1 (no_parameter_check (Py.PyInt (-5)) (Py.PyFloat 0)
                    (Py.PyInt 10) 0) H).
  - split; [exact Hf|].
    exact (proj1 (proj2 (no_parameter_check (Py.PyInt (-5))
                           (Py.PyFloat (- (1 / 2))) (Py.PyInt (-10)) 1)) Hf).
Defined.

(** *** On exact rationals *)

Local Open Scope Q_scope.








